(** * react-minimal-tetris: the board engine and the game state machine

    A shallow embedding of [core/Board.ts] (class [Board]), of
    [core/constants.ts] (the piece catalogue and the timing constants) and of
    the game-logic hook ([hooks/useGameLogic.ts], with the older inlined copy
    [GameLogic.ts]), followed by the properties of the board operations and
    of the Falling / Flashing / GameOver automaton.

    Modelling conventions.
    - Coordinates are JavaScript numbers that only ever hold integers; they
      are modelled by [Z].  Timestamps are modelled by [Z] milliseconds.
    - A [Board] wraps a JavaScript [Map<string, Color>] keyed by
      [posKey x y], the string "x,y".  [posKey] is injective on integers and
      [entries()] parses the key back, so the key is modelled by the position
      itself.  A JavaScript [Map] iterates in insertion order and [set] on a
      key already present keeps its place: the map is an association list in
      insertion order, and [NoDupKeys] is its representation invariant.
    - [Math.random], [Date.now] and [performance.now] are inputs ([Env]). *)

From Stdlib Require Import ZArith List Bool Lia String Sorted Permutation.
Import ListNotations.
Local Open Scope Z_scope.

(** ** Data model *)

Inductive Color : Type :=
  | Red | Green | Blue | Magenta | Cyan | Yellow | Orange.

Definition Position : Type := (Z * Z)%type.

Definition pos_eqb (p q : Position) : bool :=
  (fst p =? fst q) && (snd p =? snd q).

(** *** The insertion-ordered JavaScript [Map] *)

Definition JsMap : Type := list (Position * Color).

Fixpoint map_has (m : JsMap) (k : Position) : bool :=
  match m with
  | [] => false
  | (k', _) :: rest => if pos_eqb k' k then true else map_has rest k
  end.

Fixpoint map_get (m : JsMap) (k : Position) : option Color :=
  match m with
  | [] => None
  | (k', v) :: rest => if pos_eqb k' k then Some v else map_get rest k
  end.

(** [Map.prototype.set]: an existing key keeps its position and gets the new
    value, a new key is appended. *)
Fixpoint map_set (m : JsMap) (k : Position) (v : Color) : JsMap :=
  match m with
  | [] => [(k, v)]
  | (k', v') :: rest =>
      if pos_eqb k' k then (k', v) :: rest else (k', v') :: map_set rest k v
  end.

Fixpoint map_delete (m : JsMap) (k : Position) : JsMap :=
  match m with
  | [] => []
  | (k', v') :: rest =>
      if pos_eqb k' k then rest else (k', v') :: map_delete rest k
  end.

(** [new Map(iterable)]: the pairs are [set] one after the other. *)
Definition map_of_entries (es : list (Position * Color)) : JsMap :=
  fold_left (fun m e => map_set m (fst e) (snd e)) es [].

(** The representation invariant of a [Map]: no key occurs twice. *)
Definition NoDupKeys (m : JsMap) : Prop := NoDup (List.map fst m).

(** *** class Board *)

Definition Board : Type := JsMap.

(** [constructor(entries = [])] *)
Definition newBoard (es : list (Position * Color)) : Board :=
  map_of_entries es.

Definition get (b : Board) (pos : Position) : option Color := map_get b pos.

Definition set (b : Board) (pos : Position) (color : Color) : Board :=
  map_set b pos color.

Definition delete (b : Board) (pos : Position) : Board := map_delete b pos.

Definition fromPositions (positions : list Position) (color : Color) : Board :=
  fold_left (fun boardAccumulator pos => set boardAccumulator pos color)
            positions (newBoard []).

Definition entries (b : Board) : list (Position * Color) := b.

Definition modified (b : Board) (transform : Position -> Position) : Board :=
  newBoard (List.map (fun e => (transform (fst e), snd e)) (entries b)).

Definition modifiedFilter (b : Board)
    (transform : Position -> option Position) : Board :=
  fold_left
    (fun nb e =>
       match transform (fst e) with
       | Some newPos => set nb newPos (snd e)
       | None => nb
       end)
    (entries b) (newBoard []).

Definition transposed (b : Board) : Board :=
  modified b (fun p => (snd p, fst p)).

Definition mirroredY (b : Board) : Board :=
  modified b (fun p => (fst p, - snd p)).

Definition rotated (b : Board) : Board := transposed (mirroredY b).

Definition rotatedCounter (b : Board) : Board := rotated (rotated (rotated b)).

Definition negativeShift (b : Board) : Z * Z :=
  fold_left
    (fun acc e => (Z.min (fst acc) (fst (fst e)), Z.min (snd acc) (snd (fst e))))
    (entries b) (0, 0).

Definition shifted (b : Board) (shift : Z * Z) : Board :=
  modified b (fun p => (fst p + fst shift, snd p + snd shift)).

(** The loop of [merged]: [newMap] starts as a copy of [this.map]; the first
    key of [other] already present aborts with [null]. *)
Fixpoint merged_loop (newMap : JsMap) (other : list (Position * Color))
    : option Board :=
  match other with
  | [] => Some newMap
  | (key, color) :: rest =>
      if map_has newMap key then None
      else merged_loop (map_set newMap key color) rest
  end.

Definition merged (this other : Board) : option Board :=
  merged_loop this other.

Definition contained (b : Board) (boardX boardY : Z) : bool :=
  forallb
    (fun e =>
       let x := fst (fst e) in
       let y := snd (fst e) in
       (x >=? 0) && (x <? boardX) && (y >=? 0) && (y <? boardY))
    (entries b).

(** [Array.from({ length: n }, (_, i) => i)]; a negative length counts as 0. *)
Definition range (n : Z) : list Z :=
  List.map Z.of_nat (seq 0 (Z.to_nat n)).

Definition wholeLines (b : Board) (boardX boardY : Z) : list Z :=
  filter
    (fun y => forallb (fun v => v) (List.map (fun x => map_has b (x, y)) (range boardX)))
    (range boardY).

Definition killLine (b : Board) (y : Z) : Board :=
  modifiedFilter b
    (fun p =>
       let x := fst p in
       let oy := snd p in
       if oy >? y then Some (x, oy)
       else if oy =? y then None
       else Some (x, oy + 1)).

(** ** Types and constants ([core/types.ts], [core/constants.ts]) *)

Record Metrics : Type := mkMetrics {
  blockPixels : Z;
  boardX : Z;
  boardY : Z
}.

Inductive GameState : Type :=
  | Falling (board falling : Board) (shift : Z * Z) (timeSinceFall : Z)
  | Flashing (board : Board) (stage : Z) (lastStageSwitch : Z) (lines : list Z)
  | GameOver (board : Board).

Definition DEFAULT_METRICS : Metrics :=
  {| blockPixels := 20; boardX := 8; boardY := 20 |}.

Definition POSSIBLE_PIECES : list Board :=
  [ fromPositions [(0, 0); (0, 1); (1, 0); (1, 1)] Red;
    fromPositions [(0, 0); (1, 0); (2, 0); (1, 1)] Green;
    fromPositions [(0, 0); (1, 0); (2, 0); (3, 0)] Blue;
    fromPositions [(0, 0); (1, 0); (2, 0); (0, 1)] Orange;
    fromPositions [(0, 0); (1, 0); (2, 0); (2, 1)] Yellow;
    fromPositions [(1, 0); (2, 0); (0, 1); (1, 1)] Cyan;
    fromPositions [(0, 0); (1, 0); (1, 1); (2, 1)] Magenta ].

Definition FALL_INTERVAL : Z := 700.
Definition FLASH_DURATION : Z := 50.
Definition FLASH_STAGES : Z := 18.

Definition MOVE_DIRECTIONS (key : string) : option (Z * Z) :=
  if (key =? "ArrowRight")%string then Some (1, 0)
  else if (key =? "ArrowLeft")%string then Some (-1, 0)
  else if (key =? "ArrowDown")%string then Some (0, 1)
  else None.

(** ** The game logic ([hooks/useGameLogic.ts]) *)

(** What the environment supplies to one transition:
    [Math.floor(Math.random() * POSSIBLE_PIECES.length)] (always below the
    length of the catalogue), [Math.floor(Math.random() * 4)], [Date.now()]
    and [performance.now()]. *)
Record Env : Type := mkEnv {
  rand_piece : nat;
  rand_rotations : nat;
  date_now : Z;
  performance_now : Z
}.

(** Truthiness of a [Board | null]. *)
Definition truthy {A : Type} (o : option A) : bool :=
  match o with Some _ => true | None => false end.

(** The wall-kick offsets every rotation loops over. *)
Definition KICKS : list (Z * Z) := [(0, 0); (-1, 0)].

Section Logic.

Variable metrics : Metrics.

(** [for (const d of [[0,0],[-1,0]]) { ... if (merged && contained) ... }]:
    the first offset whose placement merges and is contained, if any. *)
Fixpoint tryKicks (board adjusted : Board) (shift : Z * Z)
    (ds : list (Z * Z)) : option (Z * Z) :=
  match ds with
  | [] => None
  | d :: rest =>
      let testShift := (fst shift + fst d, snd shift + snd d) in
      let testFalling := shifted adjusted testShift in
      let merged_ := merged board testFalling in
      let contained_ := contained testFalling (boardX metrics) (boardY metrics) in
      if truthy merged_ && contained_ then Some testShift
      else tryKicks board adjusted shift rest
  end.

(** The body of [for (let i = 0; i < rotations; i++)] in
    [createNewFalling], iterated [rotations] times on [falling], [shift]. *)
Fixpoint spawnRotations (board : Board) (rotations : nat)
    (falling : Board) (shift : Z * Z) : Board * (Z * Z) :=
  match rotations with
  | O => (falling, shift)
  | S rest =>
      let rotated_ := rotatedCounter falling in
      let minXY := negativeShift rotated_ in
      let adjusted := shifted rotated_ (- fst minXY, - snd minXY) in
      match tryKicks board adjusted shift KICKS with
      | Some testShift => spawnRotations board rest adjusted testShift
      | None => spawnRotations board rest falling shift
      end
  end.

Definition createNewFalling (board : Board) (env : Env) : GameState :=
  let falling := nth (rand_piece env) POSSIBLE_PIECES (newBoard []) in
  let shift := (0, 0) in
  let initialShifted := shifted falling shift in
  if negb (truthy (merged board initialShifted))
     || negb (contained initialShifted (boardX metrics) (boardY metrics))
  then GameOver board
  else
    let fs := spawnRotations board (rand_rotations env) falling shift in
    Falling board (fst fs) (snd fs) (performance_now env).

(** The parameter type [GameState & { type: "Falling" }] admits Falling
    states only; the other variants are passed through. *)
Definition attemptRotation (state : GameState) (clockwise : bool)
    : GameState :=
  match state with
  | Falling board falling shift timeSinceFall =>
      let rotated_ := if clockwise then rotated falling
                      else rotatedCounter falling in
      let minXY := negativeShift rotated_ in
      let adjusted := shifted rotated_ (- fst minXY, - snd minXY) in
      match tryKicks board adjusted shift KICKS with
      | Some testShift => Falling board adjusted testShift timeSinceFall
      | None => state
      end
  | _ => state
  end.

(** The state updater of [handleKeyDown]. *)
Definition handleKeyDown (env : Env) (key : string) (prev : GameState)
    : GameState :=
  match prev with
  | Falling board falling shift timeSinceFall =>
      match MOVE_DIRECTIONS key with
      | Some move =>
          let newShift := (fst shift + fst move, snd shift + snd move) in
          let shifted_ := shifted falling newShift in
          let merged_ := merged board shifted_ in
          let contained_ := contained shifted_ (boardX metrics) (boardY metrics) in
          if truthy merged_ && contained_ then
            Falling board falling newShift timeSinceFall
          else if snd move =? 1 then
            match merged board (shifted falling shift) with
            | Some mergedBoard =>
                let lines := wholeLines mergedBoard (boardX metrics) (boardY metrics) in
                if negb (Nat.eqb (List.length lines) 0) then
                  Flashing mergedBoard 0 (date_now env) lines
                else createNewFalling mergedBoard env
            | None => prev
            end
          else prev
      | None =>
          if (key =? "ArrowUp")%string then attemptRotation prev false
          else if (key =? " ")%string then attemptRotation prev true
          else prev
      end
  | GameOver _ =>
      if (key =? "Enter")%string then createNewFalling (newBoard []) env
      else prev
  | Flashing _ _ _ _ => prev
  end.

(** The rotation branches as the older [GameLogic.ts] has them, with the
    loop written out in [handleKeyDown] itself. *)
Definition legacyRotationBranch (key : string) (prev : GameState)
    : GameState :=
  match prev with
  | Falling board falling shift timeSinceFall =>
      if (key =? "ArrowUp")%string then
        let rotated_ := rotatedCounter falling in
        let minXY := negativeShift rotated_ in
        let adjusted := shifted rotated_ (- fst minXY, - snd minXY) in
        match tryKicks board adjusted shift KICKS with
        | Some testShift => Falling board adjusted testShift timeSinceFall
        | None => prev
        end
      else if (key =? " ")%string then
        let rotated_ := rotated falling in
        let minXY := negativeShift rotated_ in
        let adjusted := shifted rotated_ (- fst minXY, - snd minXY) in
        match tryKicks board adjusted shift KICKS with
        | Some testShift => Falling board adjusted testShift timeSinceFall
        | None => prev
        end
      else prev
  | _ => prev
  end.

(** What the hook keeps between frames: the React state and the two refs
    [lastTimeRef] and [flashAccumulatorRef]. *)
Record LoopState : Type := mkLoop {
  gameState : GameState;
  lastTime : option Z;
  flashAccumulator : Z
}.

(** One call of [gameLoop(currentTime)]: the first frame only records the
    time; later frames run the state updater. *)
Definition gameLoop (env : Env) (currentTime : Z) (s : LoopState)
    : LoopState :=
  match lastTime s with
  | None => mkLoop (gameState s) (Some currentTime) (flashAccumulator s)
  | Some last =>
      let deltaTime := currentTime - last in
      match gameState s with
      | Falling board falling shift timeSinceFall =>
          if currentTime - timeSinceFall >=? FALL_INTERVAL then
            let newShift := (fst shift, snd shift + 1) in
            let shifted_ := shifted falling newShift in
            let merged_ := merged board shifted_ in
            let contained_ := contained shifted_ (boardX metrics) (boardY metrics) in
            if truthy merged_ && contained_ then
              mkLoop (Falling board falling newShift currentTime)
                     (Some currentTime) (flashAccumulator s)
            else
              match merged board (shifted falling shift) with
              | Some mergedBoard =>
                  let lines := wholeLines mergedBoard (boardX metrics) (boardY metrics) in
                  if negb (Nat.eqb (List.length lines) 0) then
                    mkLoop (Flashing mergedBoard 0 currentTime lines)
                           (Some currentTime) 0
                  else
                    mkLoop (createNewFalling mergedBoard env)
                           (Some currentTime) (flashAccumulator s)
              | None =>
                  mkLoop (GameOver board) (Some currentTime) (flashAccumulator s)
              end
          else mkLoop (gameState s) (Some currentTime) (flashAccumulator s)
      | Flashing board stage lastStageSwitch lines =>
          let acc := flashAccumulator s + deltaTime in
          if acc >=? FLASH_DURATION then
            let acc' := Z.rem acc FLASH_DURATION in
            let stage' := stage + 1 in
            if stage' <? FLASH_STAGES then
              mkLoop (Flashing board stage' currentTime lines)
                     (Some currentTime) acc'
            else
              let newBoard_ := fold_left killLine lines board in
              mkLoop (createNewFalling newBoard_ env) (Some currentTime) acc'
          else mkLoop (gameState s) (Some currentTime) acc
      | GameOver _ =>
          mkLoop (gameState s) (Some currentTime) (flashAccumulator s)
      end
  end.

(** The two event sources of the hook, serialised. *)
Inductive Event : Type :=
  | KeyDown (key : string)
  | Frame (currentTime : Z).

Definition step (env : Env) (ev : Event) (s : LoopState) : LoopState :=
  match ev with
  | KeyDown key =>
      mkLoop (handleKeyDown env key (gameState s)) (lastTime s)
             (flashAccumulator s)
  | Frame currentTime => gameLoop env currentTime s
  end.

(** [useState(() => createNewFalling(new Board(), metrics))] and the
    initial values of the refs. *)
Definition initial (env : Env) : LoopState :=
  mkLoop (createNewFalling (newBoard []) env) None 0.

(** The states the hook can be in. *)
Inductive reachable : LoopState -> Prop :=
  | reach_initial env : reachable (initial env)
  | reach_step env ev s : reachable s -> reachable (step env ev s).

(** The placement test [merged && contained] of a piece at a shift. *)
Definition placeable (board falling : Board) (shift : Z * Z) : Prop :=
  (exists mergedBoard, merged board (shifted falling shift) = Some mergedBoard)
  /\ contained (shifted falling shift) (boardX metrics) (boardY metrics) = true.

Definition falling_invariant (st : GameState) : Prop :=
  match st with
  | Falling board falling shift _ => placeable board falling shift
  | _ => True
  end.

End Logic.

(** ** Notions used in the statements *)

(** A cell of the board is occupied. *)
Definition occupied (b : Board) (pos : Position) : Prop :=
  exists color, get b pos = Some color.

(** The entries a position transform lets through, in their order. *)
Definition survivors (transform : Position -> option Position)
    (es : list (Position * Color)) : list (Position * Color) :=
  flat_map
    (fun e =>
       match transform (fst e) with
       | Some newPos => [(newPos, snd e)]
       | None => []
       end)
    es.

(** The callback [killLine] hands to [modifiedFilter]. *)
Definition killLineTransform (y : Z) (p : Position) : option Position :=
  let x := fst p in
  let oy := snd p in
  if oy >? y then Some (x, oy)
  else if oy =? y then None
  else Some (x, oy + 1).

(** Where a cell of [killLine b y] comes from. *)
Definition killLineSource (y : Z) (q : Position) : Position :=
  if snd q >? y then q else (fst q, snd q - 1).

(** Where a cell outside row [y] goes under [killLine b y]. *)
Definition killLineTarget (y : Z) (p : Position) : Position :=
  if snd p <? y then (fst p, snd p + 1) else p.

(** The entries of a board that lie in row [y]. *)
Definition rowCells (b : Board) (y : Z) : list (Position * Color) :=
  filter (fun e => snd (fst e) =? y) (entries b).

(** A decidable form of [NoDupKeys]. *)
Fixpoint noDupKeysb (m : JsMap) : bool :=
  match m with
  | [] => true
  | (k, _) :: rest => negb (map_has rest k) && noDupKeysb rest
  end.

(** The board every game state carries. *)
Definition stateBoard (st : GameState) : Board :=
  match st with
  | Falling board _ _ _ => board
  | Flashing board _ _ _ => board
  | GameOver board => board
  end.

(** What the data model says of a game state: the maps have unique keys,
    and a Flashing state carries the full rows of its board and a stage
    below the stage count. *)
Definition wellFormed (metrics : Metrics) (st : GameState) : Prop :=
  match st with
  | Falling board falling _ _ => NoDupKeys board /\ NoDupKeys falling
  | Flashing board stage _ lines =>
      NoDupKeys board
      /\ lines = wholeLines board (boardX metrics) (boardY metrics)
      /\ 0 <= stage < FLASH_STAGES
  | GameOver board => NoDupKeys board
  end.

(** Where a cell of [fold_left killLine lines b] comes from. *)
Definition killLinesSource (lines : list Z) (q : Position) : Position :=
  fold_right killLineSource q lines.

(** The number of listed rows with an index greater than [oy], the rows
    further down the screen. *)
Definition linesBelow (lines : list Z) (oy : Z) : nat :=
  List.length (filter (fun l => oy <? l) lines).

(** The test [flashAccumulatorRef.current >= TIMING.FLASH_DURATION] a frame
    makes in the Flashing state, after adding the elapsed time. *)
Definition stageIncrement (s : LoopState) (currentTime : Z) : bool :=
  match lastTime s with
  | Some last => flashAccumulator s + (currentTime - last) >=? FLASH_DURATION
  | None => false
  end.

(** A run of events, each with what the environment supplies to it. *)
Fixpoint runEvents (metrics : Metrics) (events : list (Env * Event))
    (s : LoopState) : LoopState :=
  match events with
  | [] => s
  | e :: rest => runEvents metrics rest (step metrics (fst e) (snd e) s)
  end.

(** The number of frames of a run that pass the stage test. *)
Fixpoint stageIncrements (metrics : Metrics) (events : list (Env * Event))
    (s : LoopState) : nat :=
  match events with
  | [] => O
  | e :: rest =>
      ((match snd e with
        | Frame currentTime => if stageIncrement s currentTime then 1 else 0
        | KeyDown _ => 0
        end)
       + stageIncrements metrics rest (step metrics (fst e) (snd e) s))%nat
  end.

(** ** Boards used in the examples *)

(** A board one column wide and three rows high: Red, Green, Blue from the
    top. *)
Definition columnBoard : Board :=
  newBoard [((0, 0), Red); ((0, 1), Green); ((0, 2), Blue)].

(** A 4 x 3 grid whose row 1 is full (four colours) and whose rows 0 and 2
    are partly filled. *)
Definition gridBoard : Board :=
  newBoard [((0, 0), Red); ((2, 0), Orange);
            ((0, 1), Red); ((1, 1), Green); ((2, 1), Blue); ((3, 1), Cyan);
            ((1, 2), Yellow); ((2, 2), Magenta); ((3, 2), Red)].

(** An environment for the examples: the I piece, no initial rotation. *)
Definition exampleEnv : Env :=
  {| rand_piece := 2; rand_rotations := 0; date_now := 0; performance_now := 0 |}.

Definition envO : Env :=
  {| rand_piece := 0; rand_rotations := 0; date_now := 0; performance_now := 0 |}.

(** A game on the default 8 x 20 board: an O piece dropped in columns 0-1,
    an I piece laid in columns 2-5 of the bottom row, an O piece dropped in
    columns 6-7, which completes row 19; then the first frame. *)
Definition stackEvents : list (Env * Event) :=
  repeat (envO, KeyDown "ArrowDown") 18
  ++ [(exampleEnv, KeyDown "ArrowDown")]
  ++ repeat (exampleEnv, KeyDown "ArrowRight") 2
  ++ repeat (exampleEnv, KeyDown "ArrowDown") 19
  ++ [(envO, KeyDown "ArrowDown")]
  ++ repeat (envO, KeyDown "ArrowRight") 6
  ++ repeat (envO, KeyDown "ArrowDown") 18
  ++ [(envO, KeyDown "ArrowDown")]
  ++ [(envO, Frame 0)].

(** The locked board that game ends with: row 19 is full, row 18 holds the
    upper halves of the two O pieces. *)
Definition stackBoard : Board :=
  newBoard [((0, 18), Red); ((0, 19), Red); ((1, 18), Red); ((1, 19), Red);
            ((2, 19), Blue); ((3, 19), Blue); ((4, 19), Blue); ((5, 19), Blue);
            ((6, 18), Red); ((6, 19), Red); ((7, 18), Red); ((7, 19), Red)].

Definition flashStart : LoopState :=
  mkLoop (Flashing stackBoard 0 0 [19]) (Some 0) 0.

(** A key press, which a Flashing state ignores, and seventeen frames 50 ms
    apart, at 50, 100, ..., 850. *)
Definition flashEvents : list (Env * Event) :=
  (exampleEnv, KeyDown "ArrowLeft")
  :: List.map (fun k => (exampleEnv, Frame (50 * Z.of_nat k))) (seq 1 17).

(** ** The renderer's view of a state ([components/Game.tsx]) *)

Inductive DrawEffect : Type :=
  | EffectNone
  | Darker
  | Flash (lines : list Z).

(** [getRenderProps]: the board to draw and the effect to draw it with;
    [gameState.board.merged(shifted) || gameState.board]. *)
Definition getRenderProps (gameState : GameState) : Board * DrawEffect :=
  match gameState with
  | Falling board falling shift _ =>
      let shifted_ := shifted falling shift in
      let merged_ :=
        match merged board shifted_ with
        | Some m => m
        | None => board
        end in
      (merged_, EffectNone)
  | Flashing board stage _ lines =>
      (board, if Z.rem stage 2 =? 0 then EffectNone else Flash lines)
  | GameOver board => (board, Darker)
  end.

(** The environment draws a piece index below the length of the catalogue,
    as [Math.floor(Math.random() * POSSIBLE_PIECES.length)] does. *)
Definition validEnv (env : Env) : Prop :=
  (rand_piece env < List.length POSSIBLE_PIECES)%nat.

(** The last entry of a list of pairs for a position, which is the one
    [new Map(entries)] keeps. *)
Definition lastEntry (es : list (Position * Color)) (pos : Position)
    : option Color :=
  map_get (rev es) pos.

(** The locked board of a state lies within the bounds; a Flashing state
    has lines to clear, and any other state has no full line left (on a
    board at least one column wide). *)
Definition boardSound (metrics : Metrics) (st : GameState) : Prop :=
  contained (stateBoard st) (boardX metrics) (boardY metrics) = true
  /\ match st with
     | Flashing _ _ _ lines => lines <> []
     | _ =>
         0 < boardX metrics ->
         wholeLines (stateBoard st) (boardX metrics) (boardY metrics) = []
     end.

(** The falling piece is a tetromino in non-negative local coordinates. *)
Definition pieceSound (st : GameState) : Prop :=
  match st with
  | Falling _ falling _ _ =>
      (forall x y, occupied falling (x, y) -> 0 <= x /\ 0 <= y)
      /\ List.length (entries falling) = 4%nat
  | _ => True
  end.

(** [n] presses of the soft-drop key. *)
Fixpoint pressDown (metrics : Metrics) (env : Env) (n : nat)
    (st : GameState) : GameState :=
  match n with
  | O => st
  | S rest =>
      pressDown metrics env rest (handleKeyDown metrics env "ArrowDown" st)
  end.

(** A game that ends: on the default 8 x 20 board nine O pieces are dropped
    straight down in columns 0-1 (99 presses of the soft-drop key, the last
    of each piece locking it), the tenth O piece spawns on top of them, and
    the first frame records the time. *)
Definition towerEvents : list (Env * Event) :=
  repeat (envO, KeyDown "ArrowDown") 99 ++ [(envO, Frame 0)].

Definition towerState : LoopState :=
  runEvents DEFAULT_METRICS towerEvents (initial DEFAULT_METRICS envO).

(** The nine locked O pieces, from the bottom up: rows 2 to 19 of columns 0
    and 1. *)
Definition towerBoard : Board :=
  flat_map
    (fun i => [((0, 18 - 2 * i), Red); ((0, 19 - 2 * i), Red);
               ((1, 18 - 2 * i), Red); ((1, 19 - 2 * i), Red)])
    (range 9).

(** ** The map *)

Lemma pos_eqb_eq (p q : Position) : pos_eqb p q = true <-> p = q.
Proof.
  destruct p as [px py], q as [qx qy]; unfold pos_eqb; simpl.
  rewrite andb_true_iff, !Z.eqb_eq.
  split; [intros [-> ->]; reflexivity | intros E; inversion E; auto].
Qed.

Lemma pos_eqb_refl (p : Position) : pos_eqb p p = true.
Proof. apply pos_eqb_eq; reflexivity. Qed.

Lemma pos_eqb_neq (p q : Position) : pos_eqb p q = false <-> p <> q.
Proof.
  rewrite <- pos_eqb_eq. destruct (pos_eqb p q); split; congruence.
Qed.

Lemma map_has_In (m : JsMap) (k : Position) :
  map_has m k = true <-> In k (List.map fst m).
Proof.
  induction m as [|[k' v] rest IH]; simpl.
  - split; [discriminate | tauto].
  - destruct (pos_eqb k' k) eqn:E.
    + apply pos_eqb_eq in E. split; auto.
    + apply pos_eqb_neq in E. rewrite IH. split; [auto | intros [H|H]; congruence].
Qed.

Lemma map_has_false (m : JsMap) (k : Position) :
  map_has m k = false <-> ~ In k (List.map fst m).
Proof.
  rewrite <- map_has_In. destruct (map_has m k); split; congruence.
Qed.

Lemma map_has_get (m : JsMap) (k : Position) :
  map_has m k = truthy (map_get m k).
Proof.
  induction m as [|[k' v] rest IH]; simpl; [reflexivity|].
  destruct (pos_eqb k' k); auto.
Qed.

Lemma map_get_app (m1 m2 : JsMap) (k : Position) :
  map_get (m1 ++ m2) k =
  match map_get m1 k with Some v => Some v | None => map_get m2 k end.
Proof.
  induction m1 as [|[k' v] rest IH]; simpl; [reflexivity|].
  destruct (pos_eqb k' k); auto.
Qed.

Lemma map_has_app (m1 m2 : JsMap) (k : Position) :
  map_has (m1 ++ m2) k = map_has m1 k || map_has m2 k.
Proof.
  induction m1 as [|[k' v] rest IH]; simpl; [reflexivity|].
  destruct (pos_eqb k' k); auto.
Qed.

Lemma map_set_fresh (m : JsMap) (k : Position) (v : Color) :
  map_has m k = false -> map_set m k v = m ++ [(k, v)].
Proof.
  induction m as [|[k' v'] rest IH]; simpl; [reflexivity|].
  destruct (pos_eqb k' k); [discriminate|].
  intros H; rewrite IH; auto.
Qed.

Lemma NoDupKeys_app_fresh (m es : JsMap) (e : Position * Color) :
  NoDupKeys (m ++ e :: es) -> map_has m (fst e) = false.
Proof.
  unfold NoDupKeys. rewrite map_app. simpl. intros H.
  apply NoDup_remove_2 in H. apply map_has_false.
  intros Hin; apply H, in_or_app; auto.
Qed.

Lemma fold_set_fresh (es : list (Position * Color)) :
  forall m : JsMap,
    NoDupKeys (m ++ es) ->
    fold_left (fun m e => map_set m (fst e) (snd e)) es m = m ++ es.
Proof.
  induction es as [|e es IH]; intros m H; simpl.
  - now rewrite app_nil_r.
  - rewrite map_set_fresh by (eapply NoDupKeys_app_fresh; eauto).
    rewrite <- surjective_pairing.
    rewrite IH; rewrite <- app_assoc; simpl; auto.
Qed.

Lemma newBoard_NoDupKeys (es : list (Position * Color)) :
  NoDupKeys es -> newBoard es = es.
Proof.
  intros H. unfold newBoard, map_of_entries.
  now rewrite fold_set_fresh.
Qed.

Lemma noDupKeysb_sound (m : JsMap) : noDupKeysb m = true -> NoDupKeys m.
Proof.
  unfold NoDupKeys.
  induction m as [|[k v] rest IH]; simpl; intros H; constructor.
  - apply andb_true_iff in H. destruct H as [H _].
    apply negb_true_iff in H. now apply map_has_false.
  - apply IH. now apply andb_true_iff in H.
Qed.

(** ** [modified] under an injective transform *)

Lemma NoDup_map_injective {A B : Type} (f : A -> B) (l : list A) :
  (forall p q, f p = f q -> p = q) -> NoDup l -> NoDup (List.map f l).
Proof.
  intros Hinj H. induction H as [|a l Hnotin Hnd IH]; simpl; constructor; auto.
  intros Hin. apply in_map_iff in Hin. destruct Hin as [a' [E Ha']].
  apply Hinj in E. subst. contradiction.
Qed.

Lemma modified_injective (b : Board) (f : Position -> Position) :
  (forall p q, f p = f q -> p = q) ->
  NoDupKeys b ->
  modified b f = List.map (fun e => (f (fst e), snd e)) b
  /\ NoDupKeys (modified b f).
Proof.
  intros Hinj Hb.
  assert (Hnd : NoDupKeys (List.map (fun e => (f (fst e), snd e)) b)).
  { unfold NoDupKeys. rewrite map_map. simpl.
    rewrite <- (map_map fst f). now apply NoDup_map_injective. }
  unfold modified, entries. rewrite newBoard_NoDupKeys by exact Hnd.
  split; [reflexivity | exact Hnd].
Qed.

(** ** [modifiedFilter] under a transform injective where defined *)

Lemma modifiedFilter_fold (f : Position -> option Position)
    (es : list (Position * Color)) :
  forall acc : Board,
    fold_left
      (fun nb e =>
         match f (fst e) with
         | Some newPos => set nb newPos (snd e)
         | None => nb
         end) es acc
    = fold_left (fun m e => map_set m (fst e) (snd e)) (survivors f es) acc.
Proof.
  induction es as [|e es IH]; intros acc; simpl; [reflexivity|].
  destruct (f (fst e)); simpl; apply IH.
Qed.

Lemma In_survivors_keys (f : Position -> option Position)
    (es : list (Position * Color)) (q : Position) :
  In q (List.map fst (survivors f es)) ->
  exists k, In k (List.map fst es) /\ f k = Some q.
Proof.
  induction es as [|[k v] es IH]; simpl; [tauto|].
  unfold survivors in *. simpl. fold (survivors f es) in *.
  rewrite map_app, in_app_iff. intros [H|H].
  - destruct (f k) eqn:E; simpl in H; [|tauto].
    destruct H as [H|[]]. subst. exists k; auto.
  - destruct (IH H) as [k' [Hk' E]]. exists k'; auto.
Qed.

Lemma survivors_NoDupKeys (f : Position -> option Position) (b : Board) :
  (forall p q r, f p = Some r -> f q = Some r -> p = q) ->
  NoDupKeys b -> NoDupKeys (survivors f b).
Proof.
  intros Hinj. unfold NoDupKeys.
  induction b as [|[k v] rest IH]; simpl; intros H; [constructor|].
  inversion H as [|? ? Hnotin Hnd]; subst.
  destruct (f k) eqn:E; simpl; [|auto].
  constructor; [|auto].
  intros Hin. apply In_survivors_keys in Hin.
  destruct Hin as [k' [Hk' E']].
  assert (k = k') by (eapply Hinj; eauto). subst. contradiction.
Qed.

Lemma modifiedFilter_injective (b : Board) (f : Position -> option Position) :
  (forall p q r, f p = Some r -> f q = Some r -> p = q) ->
  NoDupKeys b ->
  modifiedFilter b f = survivors f b /\ NoDupKeys (modifiedFilter b f).
Proof.
  intros Hinj Hb.
  assert (Hnd : NoDupKeys (survivors f b)) by now apply survivors_NoDupKeys.
  unfold modifiedFilter, entries. rewrite modifiedFilter_fold.
  unfold newBoard, map_of_entries. simpl.
  rewrite fold_set_fresh by exact Hnd. simpl. auto.
Qed.

Lemma map_get_survivors (f : Position -> option Position)
    (g : Position -> Position) (b : JsMap) (q : Position) :
  (forall p, f p = Some q <-> p = g q) ->
  map_get (survivors f b) q = map_get b (g q).
Proof.
  intros Hfg. induction b as [|[k v] rest IH]; simpl; [reflexivity|].
  destruct (pos_eqb k (g q)) eqn:E.
  - apply pos_eqb_eq in E. apply Hfg in E. rewrite E. simpl.
    now rewrite pos_eqb_refl.
  - apply pos_eqb_neq in E.
    destruct (f k) as [np|] eqn:E'; simpl; [|exact IH].
    destruct (pos_eqb np q) eqn:E''; [|exact IH].
    apply pos_eqb_eq in E''. subst. apply Hfg in E'. contradiction.
Qed.

(** ** [killLine] *)

Lemma killLine_unfold (b : Board) (y : Z) :
  killLine b y = modifiedFilter b (killLineTransform y).
Proof. reflexivity. Qed.

Lemma killLineTransform_source (y : Z) (p q : Position) :
  killLineTransform y p = Some q <-> p = killLineSource y q.
Proof.
  destruct p as [px py], q as [qx qy].
  unfold killLineTransform, killLineSource; simpl.
  destruct (Z.gtb_spec py y) as [E1|E1]; destruct (Z.gtb_spec qy y) as [E2|E2];
    try destruct (Z.eqb_spec py y) as [E3|E3];
    (split; intros H; inversion H; subst; clear H;
     rewrite ?Z.sub_add, ?Z.add_simpl_r; first [ reflexivity | lia ]).
Qed.

Lemma killLineTransform_injective (y : Z) (p q r : Position) :
  killLineTransform y p = Some r -> killLineTransform y q = Some r -> p = q.
Proof.
  rewrite !killLineTransform_source. congruence.
Qed.

Lemma killLine_entries (b : Board) (y : Z) :
  NoDupKeys b ->
  killLine b y = survivors (killLineTransform y) b
  /\ NoDupKeys (killLine b y).
Proof.
  intros Hb. rewrite killLine_unfold.
  apply modifiedFilter_injective; [apply killLineTransform_injective | exact Hb].
Qed.

Lemma killLine_NoDupKeys (b : Board) (y : Z) :
  NoDupKeys b -> NoDupKeys (killLine b y).
Proof. intros Hb. now apply killLine_entries. Qed.

Lemma get_killLine (b : Board) (y : Z) (q : Position) :
  NoDupKeys b -> get (killLine b y) q = get b (killLineSource y q).
Proof.
  intros Hb. destruct (killLine_entries b y Hb) as [-> _].
  unfold get. apply map_get_survivors.
  intros p. apply killLineTransform_source.
Qed.

Lemma killLineSource_target (y : Z) (p : Position) :
  snd p <> y -> killLineSource y (killLineTarget y p) = p.
Proof.
  destruct p as [px py]. unfold killLineSource, killLineTarget; simpl.
  intros Hne. destruct (py <? y) eqn:E; simpl.
  - apply Z.ltb_lt in E.
    destruct (py + 1 >? y) eqn:E'; [rewrite Z.gtb_ltb, Z.ltb_lt in E'; lia|].
    f_equal; lia.
  - apply Z.ltb_ge in E.
    destruct (py >? y) eqn:E'; [reflexivity|].
    rewrite Z.gtb_ltb, Z.ltb_ge in E'. lia.
Qed.

Lemma killLineTarget_source (y : Z) (q : Position) :
  snd (killLineSource y q) <> y
  /\ killLineTarget y (killLineSource y q) = q.
Proof.
  destruct q as [qx qy]. unfold killLineSource, killLineTarget; simpl.
  destruct (qy >? y) eqn:E; simpl; rewrite Z.gtb_ltb in E.
  - apply Z.ltb_lt in E. split; [lia|].
    destruct (qy <? y) eqn:E'; [apply Z.ltb_lt in E'; lia | reflexivity].
  - apply Z.ltb_ge in E. split; [lia|].
    destruct (qy - 1 <? y) eqn:E'; [f_equal; lia | apply Z.ltb_ge in E'; lia].
Qed.

Lemma survivors_killLine_length (b : Board) (y : Z) :
  (List.length (survivors (killLineTransform y) b)
   + List.length (rowCells b y))%nat = List.length b.
Proof.
  unfold rowCells, entries.
  induction b as [|[[kx ky] v] rest IH]; simpl; [reflexivity|].
  unfold killLineTransform at 1; simpl.
  destruct (ky >? y) eqn:E1.
  - rewrite Z.gtb_ltb, Z.ltb_lt in E1.
    destruct (ky =? y) eqn:E2; [apply Z.eqb_eq in E2; lia|].
    simpl. now rewrite IH.
  - destruct (ky =? y) eqn:E2; simpl; rewrite <- IH; lia.
Qed.

(** C2.  For a board [b] and a row index [y], [killLine b y] holds exactly
    the cells of [b] outside row [y]: a cell of a row with index below [y]
    is found one row further down (index + 1) with its colour, a cell of a
    row with index above [y] is found where it was, and every cell of the
    result is one of these, so nothing of row [y] remains. *)
Theorem killLine_removes_row_and_shifts (b : Board) (y : Z)
    (Hb : NoDupKeys b) :
  (forall x oy color,
      get b (x, oy) = Some color -> oy < y ->
      get (killLine b y) (x, oy + 1) = Some color)
  /\ (forall x oy color,
      get b (x, oy) = Some color -> oy > y ->
      get (killLine b y) (x, oy) = Some color)
  /\ (forall q color,
      get (killLine b y) q = Some color ->
      exists x oy,
        get b (x, oy) = Some color /\ oy <> y
        /\ q = (if oy <? y then (x, oy + 1) else (x, oy))).
Proof.
  split; [|split].
  - intros x oy color Hget Hlt.
    rewrite get_killLine by exact Hb.
    unfold killLineSource; simpl.
    destruct (Z.gtb_spec (oy + 1) y) as [E|E]; [lia|].
    now rewrite Z.add_simpl_r.
  - intros x oy color Hget Hgt.
    rewrite get_killLine by exact Hb.
    unfold killLineSource; simpl.
    destruct (Z.gtb_spec oy y) as [E|E]; [exact Hget | lia].
  - intros q color Hget.
    rewrite get_killLine in Hget by exact Hb.
    destruct (killLineTarget_source y q) as [Hne Hq].
    destruct (killLineSource y q) as [x oy] eqn:E.
    exists x, oy. split; [exact Hget|]. split; [exact Hne|].
    rewrite <- Hq. reflexivity.
Qed.

Lemma killLine_removes_row_and_shifts_witness :
  NoDupKeys columnBoard
  /\ get (killLine columnBoard 1) (0, 0 + 1) = Some Red.
Proof.
  split; [apply noDupKeysb_sound; reflexivity|].
  apply (proj1 (killLine_removes_row_and_shifts columnBoard 1
                  (noDupKeysb_sound columnBoard eq_refl)));
    [reflexivity | lia].
Defined.

(** C3, as the code has it.  On the one-column board with (0,0)=Red,
    (0,1)=Green, (0,2)=Blue, [killLine 1] drops the Green cell of row 1,
    moves the Red cell of row 0 down into row 1 and leaves the Blue cell of
    row 2 where it is: the result is (0,1)=Red, (0,2)=Blue, and row 0 is
    empty. *)
Theorem killLine_column_example :
  killLine columnBoard 1 = [((0, 1), Red); ((0, 2), Blue)]
  /\ get (killLine columnBoard 1) (0, 1) = Some Red
  /\ get (killLine columnBoard 1) (0, 2) = Some Blue
  /\ (forall x, get (killLine columnBoard 1) (x, 0) = None).
Proof.
  assert (E : killLine columnBoard 1 = [((0, 1), Red); ((0, 2), Blue)])
    by reflexivity.
  rewrite E. repeat split.
  intros x. unfold get; simpl. unfold pos_eqb; simpl.
  now rewrite !andb_false_r.
Qed.

(** C3 as the specification words it (Red stays at (0,0), Blue moves up to
    (0,1), row 2 is empty) does not hold of the code. *)
Lemma column_example_as_stated_fails :
  ~ (get (killLine columnBoard 1) (0, 0) = Some Red
     /\ get (killLine columnBoard 1) (0, 1) = Some Blue
     /\ (forall x, get (killLine columnBoard 1) (x, 2) = None)).
Proof.
  intros [H _]. vm_compute in H. discriminate H.
Qed.

(** C10.  [killLine b y] never puts two surviving cells on one position:
    [killLineTarget y] maps the cells of [b] outside row [y] one-to-one onto
    the cells of [killLine b y], colours kept, so the number of cells of
    [killLine b y] is the number of cells of [b] minus the number of cells of
    [b] in row [y]. *)
Theorem killLine_bijection (b : Board) (y : Z) (Hb : NoDupKeys b) :
  List.length (entries (killLine b y))
  = (List.length (entries b) - List.length (rowCells b y))%nat
  /\ (List.length (rowCells b y) <= List.length (entries b))%nat
  /\ NoDupKeys (killLine b y)
  /\ (forall p color,
        snd p <> y -> get b p = Some color ->
        get (killLine b y) (killLineTarget y p) = Some color)
  /\ (forall p p',
        snd p <> y -> snd p' <> y ->
        killLineTarget y p = killLineTarget y p' -> p = p')
  /\ (forall q color,
        get (killLine b y) q = Some color ->
        exists p,
          snd p <> y /\ killLineTarget y p = q /\ get b p = Some color).
Proof.
  destruct (killLine_entries b y Hb) as [E Hnd].
  pose proof (survivors_killLine_length b y) as Hlen.
  unfold entries. rewrite E at 1.
  split; [lia|]. split; [unfold entries in *; lia|]. split; [exact Hnd|].
  split; [|split].
  - intros p color Hne Hget.
    rewrite get_killLine by exact Hb.
    now rewrite killLineSource_target.
  - intros p p' Hp Hp' Heq.
    rewrite <- (killLineSource_target y p Hp).
    rewrite <- (killLineSource_target y p' Hp').
    now rewrite Heq.
  - intros q color Hget.
    rewrite get_killLine in Hget by exact Hb.
    destruct (killLineTarget_source y q) as [Hne Hq].
    exists (killLineSource y q). auto.
Qed.

Lemma killLine_bijection_witness :
  NoDupKeys gridBoard
  /\ List.length (entries (killLine gridBoard 1))
     = (List.length (entries gridBoard)
        - List.length (rowCells gridBoard 1))%nat.
Proof.
  split; [apply noDupKeysb_sound; reflexivity|].
  apply (proj1 (killLine_bijection gridBoard 1
                  (noDupKeysb_sound gridBoard eq_refl))).
Defined.

(** ** [wholeLines] *)

Lemma In_range (n y : Z) : In y (range n) <-> 0 <= y < n.
Proof.
  unfold range. rewrite in_map_iff. split.
  - intros [k [<- Hk]]. apply in_seq in Hk. lia.
  - intros H. exists (Z.to_nat y). split; [lia|]. apply in_seq. lia.
Qed.

Lemma range_from_sorted (len : nat) :
  forall start : nat,
    StronglySorted Z.lt (List.map Z.of_nat (seq start len)).
Proof.
  induction len as [|len IH]; intros start; simpl; constructor.
  - apply IH.
  - apply Forall_forall. intros z Hz.
    apply in_map_iff in Hz. destruct Hz as [k [<- Hk]].
    apply in_seq in Hk. lia.
Qed.

Lemma filter_sorted (f : Z -> bool) (l : list Z) :
  StronglySorted Z.lt l -> StronglySorted Z.lt (filter f l).
Proof.
  intros H. induction H as [|a l Hs IH Hall]; simpl; [constructor|].
  destruct (f a); [|exact IH].
  constructor; [exact IH|].
  apply Forall_forall. intros z Hz. apply filter_In in Hz.
  destruct Hz as [Hz _]. rewrite Forall_forall in Hall. auto.
Qed.

Lemma map_has_occupied (b : Board) (p : Position) :
  map_has b p = true <-> occupied b p.
Proof.
  unfold occupied, get. rewrite map_has_get.
  destruct (map_get b p) as [c|]; simpl; split.
  - intros _. now exists c.
  - reflexivity.
  - discriminate.
  - intros [c H]. discriminate.
Qed.

Lemma row_full (b : Board) (w y : Z) :
  forallb (fun v => v) (List.map (fun x => map_has b (x, y)) (range w)) = true
  <-> (forall x, 0 <= x < w -> occupied b (x, y)).
Proof.
  rewrite forallb_forall. split.
  - intros H x Hx. apply map_has_occupied. apply H.
    apply in_map_iff. exists x. split; [reflexivity|]. now apply In_range.
  - intros H v Hv. apply in_map_iff in Hv. destruct Hv as [x [<- Hx]].
    apply map_has_occupied, H. now apply In_range.
Qed.

Lemma wholeLines_sorted (b : Board) (w h : Z) :
  StronglySorted Z.lt (wholeLines b w h).
Proof. unfold wholeLines. apply filter_sorted, range_from_sorted. Qed.

(** C9.  [wholeLines b w h] is strictly ascending and holds exactly the row
    indices [y] of [0, h) whose every column [x] of [0, w) is occupied; on
    the 4 x 3 grid with row 1 full and rows 0 and 2 partly filled it is
    [[1]]. *)
Theorem wholeLines_spec (b : Board) (w h : Z) :
  StronglySorted Z.lt (wholeLines b w h)
  /\ (forall y,
        In y (wholeLines b w h) <->
        0 <= y < h /\ (forall x, 0 <= x < w -> occupied b (x, y)))
  /\ wholeLines gridBoard 4 3 = [1].
Proof.
  split; [|split].
  - apply wholeLines_sorted.
  - intros y. unfold wholeLines. rewrite filter_In, In_range, row_full.
    reflexivity.
  - reflexivity.
Qed.

(** ** [merged] *)

Lemma existsb_has_fresh (m : JsMap) (e : Position * Color)
    (es : list (Position * Color)) :
  ~ In (fst e) (List.map fst es) ->
  existsb (fun e' => map_has (m ++ [e]) (fst e')) es
  = existsb (fun e' => map_has m (fst e')) es.
Proof.
  destruct e as [k c]; simpl.
  induction es as [|e' es IH]; simpl; intros H; [reflexivity|].
  rewrite IH by tauto. f_equal.
  rewrite map_has_app. simpl.
  destruct (pos_eqb k (fst e')) eqn:E.
  - apply pos_eqb_eq in E. exfalso. apply H. left. now symmetry.
  - now rewrite orb_false_r.
Qed.

Lemma merged_loop_spec (es : list (Position * Color)) :
  forall m : JsMap,
    NoDupKeys es ->
    merged_loop m es =
    if existsb (fun e => map_has m (fst e)) es then None else Some (m ++ es).
Proof.
  induction es as [|[k c] es IH]; intros m H; simpl.
  - now rewrite app_nil_r.
  - inversion H as [|? ? Hnotin Hnd]; subst.
    destruct (map_has m k) eqn:E; simpl; [reflexivity|].
    rewrite map_set_fresh by exact E.
    rewrite IH by exact Hnd.
    rewrite (existsb_has_fresh m (k, c) es) by exact Hnotin.
    now rewrite <- app_assoc.
Qed.

Lemma overlap_iff (m es : JsMap) :
  existsb (fun e => map_has m (fst e)) es = true <->
  exists k, In k (List.map fst es) /\ In k (List.map fst m).
Proof.
  rewrite existsb_exists. split.
  - intros [e [He Hhas]]. exists (fst e). split.
    + now apply in_map.
    + now apply map_has_In.
  - intros [k [Hes Hm]]. apply in_map_iff in Hes.
    destruct Hes as [e [<- He]]. exists e. split; [exact He|].
    now apply map_has_In.
Qed.

Lemma overlap_sym (a b : JsMap) :
  existsb (fun e => map_has a (fst e)) b
  = existsb (fun e => map_has b (fst e)) a.
Proof.
  apply eq_true_iff_eq. rewrite !overlap_iff.
  split; intros [k [H1 H2]]; exists k; auto.
Qed.

Lemma merged_spec (this other : Board) :
  NoDupKeys other ->
  merged this other =
  if existsb (fun e => map_has this (fst e)) other then None
  else Some (this ++ other).
Proof. intros H. unfold merged. now apply merged_loop_spec. Qed.

(** C7.  [merged a b] is the collision outcome exactly when [merged b a] is;
    and when both succeed the two boards have the same cells: every
    position holds the same colour, or is empty, in both, and the entries of
    one are a rearrangement of the entries of the other. *)
Theorem merged_symmetric (a b : Board)
    (Ha : NoDupKeys a) (Hb : NoDupKeys b) :
  (merged a b = None <-> merged b a = None)
  /\ (forall ab ba,
        merged a b = Some ab -> merged b a = Some ba ->
        (forall p, get ab p = get ba p)
        /\ Permutation (entries ab) (entries ba)).
Proof.
  rewrite (merged_spec a b Hb), (merged_spec b a Ha).
  rewrite (overlap_sym a b).
  destruct (existsb (fun e => map_has b (fst e)) a) eqn:E.
  - split; [tauto | discriminate].
  - split; [split; discriminate|].
    intros ab ba Hab Hba. inversion Hab; inversion Hba; subst. clear Hab Hba.
    split; [|apply Permutation_app_comm].
    intros p. unfold get. rewrite !map_get_app.
    destruct (map_get a p) as [ca|] eqn:Ea;
      destruct (map_get b p) as [cb|] eqn:Eb; try reflexivity.
    exfalso.
    assert (Hov : existsb (fun e => map_has b (fst e)) a = true).
    { apply overlap_iff. exists p. split.
      - apply map_has_In. rewrite map_has_get, Ea. reflexivity.
      - apply map_has_In. rewrite map_has_get, Eb. reflexivity. }
    congruence.
Qed.

Lemma merged_symmetric_witness :
  (NoDupKeys columnBoard /\ NoDupKeys gridBoard)
  /\ (merged columnBoard gridBoard = None <->
      merged gridBoard columnBoard = None).
Proof.
  split; [split; apply noDupKeysb_sound; reflexivity|].
  apply (proj1 (merged_symmetric columnBoard gridBoard
                  (noDupKeysb_sound columnBoard eq_refl)
                  (noDupKeysb_sound gridBoard eq_refl))).
Defined.

(** ** Rotation *)

Lemma mirroredY_entries (b : Board) :
  NoDupKeys b ->
  mirroredY b = List.map (fun e => ((fst (fst e), - snd (fst e)), snd e)) b
  /\ NoDupKeys (mirroredY b).
Proof.
  intros Hb. unfold mirroredY. apply modified_injective; [|exact Hb].
  intros [px py] [qx qy] E; simpl in E. inversion E. f_equal. lia.
Qed.

Lemma transposed_entries (b : Board) :
  NoDupKeys b ->
  transposed b = List.map (fun e => ((snd (fst e), fst (fst e)), snd e)) b
  /\ NoDupKeys (transposed b).
Proof.
  intros Hb. unfold transposed. apply modified_injective; [|exact Hb].
  intros [px py] [qx qy] E; simpl in E. inversion E. reflexivity.
Qed.

Lemma shifted_entries (b : Board) (shift : Z * Z) :
  NoDupKeys b ->
  shifted b shift
  = List.map
      (fun e => ((fst (fst e) + fst shift, snd (fst e) + snd shift), snd e)) b
  /\ NoDupKeys (shifted b shift).
Proof.
  intros Hb. unfold shifted. apply modified_injective; [|exact Hb].
  intros [px py] [qx qy] E; simpl in E. inversion E. f_equal; lia.
Qed.

(** A quarter turn sends the cell at (x, y) to (-y, x). *)
Lemma rotated_entries (b : Board) :
  NoDupKeys b ->
  rotated b = List.map (fun e => ((- snd (fst e), fst (fst e)), snd e)) b
  /\ NoDupKeys (rotated b).
Proof.
  intros Hb. unfold rotated.
  destruct (mirroredY_entries b Hb) as [Em Hm].
  destruct (transposed_entries (mirroredY b) Hm) as [Et Ht].
  split; [|exact Ht].
  rewrite Et, Em, map_map. reflexivity.
Qed.

Lemma rotated_four_times (b : Board) :
  NoDupKeys b -> rotated (rotated (rotated (rotated b))) = b.
Proof.
  intros Hb.
  destruct (rotated_entries b Hb) as [E1 H1].
  destruct (rotated_entries _ H1) as [E2 H2].
  destruct (rotated_entries _ H2) as [E3 H3].
  destruct (rotated_entries _ H3) as [E4 _].
  rewrite E4, E3, E2, E1, !map_map. simpl.
  rewrite <- (map_id b) at 2. apply map_ext.
  intros [[x y] c]; simpl. now rewrite !Z.opp_involutive.
Qed.

(** C8.  Four quarter turns give the piece back: the cells of
    [P.rotated().rotated().rotated().rotated()] are the cells of [P], each
    with its colour, already before any normalisation, hence also after both
    are moved by one common offset and after the normalisation the game
    applies ([negativeShift], then [shifted]). *)
Theorem rotated_four_times_same_cells (P : Board) (HP : NoDupKeys P) :
  let P4 := rotated (rotated (rotated (rotated P))) in
  (forall pos, get P4 pos = get P pos)
  /\ Permutation (entries P4) (entries P)
  /\ (forall origin pos,
        get (shifted P4 origin) pos = get (shifted P origin) pos)
  /\ (forall pos,
        get (shifted P4 (- fst (negativeShift P4), - snd (negativeShift P4))) pos
        = get (shifted P (- fst (negativeShift P), - snd (negativeShift P))) pos).
Proof.
  intros P4. unfold P4. rewrite (rotated_four_times P HP).
  repeat split. apply Permutation_refl.
Qed.

Lemma rotated_four_times_same_cells_witness :
  NoDupKeys (nth 1 POSSIBLE_PIECES [])
  /\ (forall pos,
        get (rotated (rotated (rotated (rotated (nth 1 POSSIBLE_PIECES [])))))
            pos
        = get (nth 1 POSSIBLE_PIECES []) pos).
Proof.
  split; [apply noDupKeysb_sound; reflexivity|].
  apply (proj1 (rotated_four_times_same_cells (nth 1 POSSIBLE_PIECES [])
                  (noDupKeysb_sound (nth 1 POSSIBLE_PIECES []) eq_refl))).
Defined.

(** ** The placement test and the invariant of Falling states *)

Section Invariant.

Variable metrics : Metrics.

Lemma truthy_true {A : Type} (o : option A) :
  truthy o = true <-> exists a, o = Some a.
Proof.
  destruct o as [a|]; simpl; split.
  - intros _. now exists a.
  - reflexivity.
  - discriminate.
  - intros [a H]. discriminate.
Qed.

Lemma placement_test (board falling : Board) (shift : Z * Z) :
  truthy (merged board (shifted falling shift))
  && contained (shifted falling shift) (boardX metrics) (boardY metrics) = true
  <-> placeable metrics board falling shift.
Proof.
  unfold placeable. now rewrite andb_true_iff, truthy_true.
Qed.

Lemma tryKicks_placeable (board adjusted : Board) (shift testShift : Z * Z)
    (ds : list (Z * Z)) :
  tryKicks metrics board adjusted shift ds = Some testShift ->
  placeable metrics board adjusted testShift.
Proof.
  induction ds as [|d rest IH]; simpl; [discriminate|].
  match goal with |- context [if ?c then _ else _] => destruct c eqn:E end.
  - intros H. inversion H. subst. now apply placement_test.
  - exact IH.
Qed.

Local Arguments tryKicks : simpl never.

Lemma spawnRotations_placeable (board : Board) (rotations : nat) :
  forall (falling : Board) (shift : Z * Z),
    placeable metrics board falling shift ->
    placeable metrics board
      (fst (spawnRotations metrics board rotations falling shift))
      (snd (spawnRotations metrics board rotations falling shift)).
Proof.
  induction rotations as [|rest IH]; intros falling shift H; simpl.
  - exact H.
  - match goal with |- context [tryKicks ?m ?b ?a ?s ?d] =>
      destruct (tryKicks m b a s d) as [testShift|] eqn:E end.
    + apply IH. eapply tryKicks_placeable; eauto.
    + now apply IH.
Qed.

Lemma createNewFalling_cases (board : Board) (env : Env) :
  let piece := nth (rand_piece env) POSSIBLE_PIECES (newBoard []) in
  (placeable metrics board piece (0, 0)
   /\ exists falling shift,
        createNewFalling metrics board env
        = Falling board falling shift (performance_now env)
        /\ placeable metrics board falling shift)
  \/ (~ placeable metrics board piece (0, 0)
      /\ createNewFalling metrics board env = GameOver board).
Proof.
  intros piece. unfold createNewFalling. fold piece.
  destruct (truthy (merged board (shifted piece (0, 0)))
            && contained (shifted piece (0, 0))
                 (boardX metrics) (boardY metrics)) eqn:E.
  - left. pose proof E as Hp. apply placement_test in Hp.
    apply andb_true_iff in E. destruct E as [E1 E2].
    rewrite E1, E2. simpl. split; [exact Hp|].
    eexists _, _. split; [reflexivity|].
    now apply spawnRotations_placeable.
  - right. split.
    + rewrite <- placement_test. congruence.
    + apply andb_false_iff in E. destruct E as [E|E]; rewrite E; simpl.
      * reflexivity.
      * now rewrite orb_true_r.
Qed.

Lemma createNewFalling_invariant (board : Board) (env : Env) :
  falling_invariant metrics (createNewFalling metrics board env).
Proof.
  destruct (createNewFalling_cases board env)
    as [[_ [falling [shift [-> H]]]] | [_ ->]]; simpl; auto.
Qed.

Lemma attemptRotation_invariant (st : GameState) (clockwise : bool) :
  falling_invariant metrics st ->
  falling_invariant metrics (attemptRotation metrics st clockwise).
Proof.
  destruct st as [board falling shift t| |]; simpl; auto.
  intros H.
  match goal with |- context [tryKicks ?m ?b ?a ?s ?d] =>
    destruct (tryKicks m b a s d) as [testShift|] eqn:E end; simpl.
  - eapply tryKicks_placeable; eauto.
  - exact H.
Qed.

Lemma handleKeyDown_invariant (env : Env) (key : string) (prev : GameState) :
  falling_invariant metrics prev ->
  falling_invariant metrics (handleKeyDown metrics env key prev).
Proof.
  intros H. destruct prev as [board falling shift t| |board];
  unfold handleKeyDown.
  - destruct (MOVE_DIRECTIONS key) as [move|].
    + match goal with |- context [if ?c then _ else _] =>
        destruct c eqn:E end.
      * simpl. now apply placement_test.
      * destruct (snd move =? 1); [|exact H].
        destruct (merged board (shifted falling shift)) as [mergedBoard|];
          [|exact H].
        match goal with |- context [if ?c then _ else _] => destruct c end;
          [exact I | apply createNewFalling_invariant].
    + destruct (key =? "ArrowUp")%string;
        [now apply attemptRotation_invariant|].
      destruct (key =? " ")%string;
        [now apply attemptRotation_invariant | exact H].
  - exact I.
  - destruct (key =? "Enter")%string;
      [apply createNewFalling_invariant | exact I].
Qed.

Lemma gameLoop_invariant (env : Env) (currentTime : Z) (s : LoopState) :
  falling_invariant metrics (gameState s) ->
  falling_invariant metrics (gameState (gameLoop metrics env currentTime s)).
Proof.
  unfold gameLoop.
  destruct (lastTime s) as [last|]; [|auto].
  destruct (gameState s) as [board falling shift t|board stage lss lines|board];
    intros H.
  - destruct (currentTime - t >=? FALL_INTERVAL); [|exact H].
    match goal with |- context [if ?c then _ else _] =>
      destruct c eqn:E end.
    + simpl. now apply placement_test.
    + destruct (merged board (shifted falling shift)) as [mergedBoard|];
        [|exact I].
      match goal with |- context [if ?c then _ else _] => destruct c end;
        [exact I | apply createNewFalling_invariant].
  - destruct (flashAccumulator s + (currentTime - last) >=? FLASH_DURATION);
      [|exact I].
    destruct (stage + 1 <? FLASH_STAGES);
      [exact I | apply createNewFalling_invariant].
  - exact I.
Qed.

Lemma step_invariant (env : Env) (ev : Event) (s : LoopState) :
  falling_invariant metrics (gameState s) ->
  falling_invariant metrics (gameState (step metrics env ev s)).
Proof.
  destruct ev as [key|currentTime]; simpl.
  - apply handleKeyDown_invariant.
  - apply gameLoop_invariant.
Qed.

Lemma reachable_invariant (s : LoopState) :
  reachable metrics s -> falling_invariant metrics (gameState s).
Proof.
  intros H. induction H as [env|env ev s Hs IH].
  - apply createNewFalling_invariant.
  - now apply step_invariant.
Qed.

End Invariant.

(** C1.  Every Falling state the machine produces keeps the falling piece
    placeable: the spawn procedure yields it on any board, a key press (move
    or rotation, accepted or not) and a frame (gravity step, lock, end of the
    flash) preserve it, so it holds in every state the hook can reach; there
    the piece at its current shift merges with the locked board, which is the
    merge the lock sequence performs, and lies within the bounds. *)
Theorem falling_piece_always_placeable (metrics : Metrics) :
  (forall board env,
      falling_invariant metrics (createNewFalling metrics board env))
  /\ (forall env key prev,
        falling_invariant metrics prev ->
        falling_invariant metrics (handleKeyDown metrics env key prev))
  /\ (forall env currentTime s,
        falling_invariant metrics (gameState s) ->
        falling_invariant metrics
          (gameState (gameLoop metrics env currentTime s)))
  /\ (forall s board falling shift timeSinceFall,
        reachable metrics s ->
        gameState s = Falling board falling shift timeSinceFall ->
        (exists mergedBoard,
            merged board (shifted falling shift) = Some mergedBoard)
        /\ contained (shifted falling shift)
             (boardX metrics) (boardY metrics) = true).
Proof.
  split; [|split; [|split]].
  - apply createNewFalling_invariant.
  - apply handleKeyDown_invariant.
  - apply gameLoop_invariant.
  - intros s board falling shift t Hs Est.
    pose proof (reachable_invariant metrics s Hs) as H.
    rewrite Est in H. exact H.
Qed.

Lemma falling_piece_always_placeable_witness :
  reachable DEFAULT_METRICS (initial DEFAULT_METRICS exampleEnv)
  /\ gameState (initial DEFAULT_METRICS exampleEnv)
     = Falling [] (nth 2 POSSIBLE_PIECES []) (0, 0) 0
  /\ ((exists mergedBoard,
         merged [] (shifted (nth 2 POSSIBLE_PIECES []) (0, 0))
         = Some mergedBoard)
      /\ contained (shifted (nth 2 POSSIBLE_PIECES []) (0, 0)) 8 20 = true).
Proof.
  split; [apply reach_initial|]. split; [reflexivity|].
  apply (proj2 (proj2 (proj2
           (falling_piece_always_placeable DEFAULT_METRICS)))
           (initial DEFAULT_METRICS exampleEnv)
           [] (nth 2 POSSIBLE_PIECES []) (0, 0) 0
           (reach_initial DEFAULT_METRICS exampleEnv) eq_refl).
Defined.

(** ** The spawn procedure *)

Lemma not_placeable_iff (metrics : Metrics) (board falling : Board)
    (shift : Z * Z) :
  ~ placeable metrics board falling shift <->
  merged board (shifted falling shift) = None
  \/ contained (shifted falling shift) (boardX metrics) (boardY metrics)
     = false.
Proof.
  unfold placeable.
  destruct (merged board (shifted falling shift)) as [mb|];
    destruct (contained (shifted falling shift) (boardX metrics)
                (boardY metrics)); split.
  - intros H. exfalso. apply H. split; [now exists mb | reflexivity].
  - intros [H|H]; discriminate.
  - auto.
  - intros _ [_ H]. discriminate.
  - auto.
  - intros _ [[mb H] _]. discriminate.
  - auto.
  - intros _ [[mb H] _]. discriminate.
Qed.

(** C5.  [createNewFalling board metrics] is the GameOver state carrying
    [board] exactly when the selected piece at shift (0,0) does not merge
    with the board or is not contained in the bounds; otherwise it is a
    Falling state on [board].  It is a total function (the two loops are
    bounded), it never answers with another board or another kind of state,
    and the piece of a Falling state it returns merges with the board and is
    contained. *)
Theorem createNewFalling_game_over_iff (metrics : Metrics) (board : Board)
    (env : Env) :
  let piece := nth (rand_piece env) POSSIBLE_PIECES (newBoard []) in
  let initialShifted := shifted piece (0, 0) in
  let blocked :=
    merged board initialShifted = None
    \/ contained initialShifted (boardX metrics) (boardY metrics) = false in
  (createNewFalling metrics board env = GameOver board <-> blocked)
  /\ (forall b, createNewFalling metrics board env = GameOver b -> b = board)
  /\ (~ blocked ->
      exists falling shift,
        createNewFalling metrics board env
        = Falling board falling shift (performance_now env))
  /\ (forall b falling shift t,
        createNewFalling metrics board env = Falling b falling shift t ->
        b = board
        /\ (exists mergedBoard,
              merged board (shifted falling shift) = Some mergedBoard)
        /\ contained (shifted falling shift) (boardX metrics) (boardY metrics)
           = true)
  /\ (forall b stage lastStageSwitch lines,
        createNewFalling metrics board env
        <> Flashing b stage lastStageSwitch lines).
Proof.
  intros piece initialShifted blocked.
  assert (Hblocked : ~ placeable metrics board piece (0, 0) <-> blocked)
    by apply not_placeable_iff.
  destruct (createNewFalling_cases metrics board env)
    as [[Hp [falling [shift [E Hfs]]]] | [Hnp E]];
    fold piece in Hp || fold piece in Hnp; rewrite E.
  - assert (Hnb : ~ blocked) by (rewrite <- Hblocked; tauto).
    split; [split; [discriminate | tauto]|].
    split; [discriminate|].
    split; [intros _; now exists falling, shift|].
    split; [|discriminate].
    intros b f sh t H. inversion H; subst. split; [reflexivity | exact Hfs].
  - assert (Hb : blocked) by now apply Hblocked.
    split; [tauto|].
    split; [intros b H; now inversion H|].
    split; [tauto|].
    split; discriminate.
Qed.

(** ** Rotation input *)

Lemma tryKicks_KICKS (metrics : Metrics) (board adjusted : Board) (sx sy : Z) :
  let fits shift :=
    truthy (merged board (shifted adjusted shift))
    && contained (shifted adjusted shift) (boardX metrics) (boardY metrics) in
  tryKicks metrics board adjusted (sx, sy) KICKS =
  if fits (sx, sy) then Some (sx, sy)
  else if fits (sx - 1, sy) then Some (sx - 1, sy)
  else None.
Proof.
  intros fits. unfold fits, KICKS. cbn [tryKicks fst snd].
  rewrite !Z.add_0_r. change (sx + -1) with (sx - 1). reflexivity.
Qed.

Lemma handleKeyDown_rotation_keys (metrics : Metrics) (env : Env)
    (board falling : Board) (shift : Z * Z) (t : Z) :
  handleKeyDown metrics env "ArrowUp" (Falling board falling shift t)
  = attemptRotation metrics (Falling board falling shift t) false
  /\ handleKeyDown metrics env " " (Falling board falling shift t)
     = attemptRotation metrics (Falling board falling shift t) true.
Proof. split; reflexivity. Qed.

Lemma legacyRotationBranch_rotation_keys (metrics : Metrics)
    (board falling : Board) (shift : Z * Z) (t : Z) :
  legacyRotationBranch metrics "ArrowUp" (Falling board falling shift t)
  = attemptRotation metrics (Falling board falling shift t) false
  /\ legacyRotationBranch metrics " " (Falling board falling shift t)
     = attemptRotation metrics (Falling board falling shift t) true.
Proof. split; reflexivity. Qed.

(** ** Clearing several lines *)

Lemma fold_killLine_NoDupKeys (lines : list Z) :
  forall b : Board, NoDupKeys b -> NoDupKeys (fold_left killLine lines b).
Proof.
  induction lines as [|l ls IH]; intros b Hb; simpl; [exact Hb|].
  apply IH. now apply killLine_NoDupKeys.
Qed.

Lemma get_fold_killLine (lines : list Z) :
  forall (b : Board) (q : Position),
    NoDupKeys b ->
    get (fold_left killLine lines b) q = get b (killLinesSource lines q).
Proof.
  induction lines as [|l ls IH]; intros b q Hb; simpl; [reflexivity|].
  rewrite IH by now apply killLine_NoDupKeys.
  now rewrite get_killLine.
Qed.

Lemma killLineSource_injective (y : Z) (p q : Position) :
  killLineSource y p = killLineSource y q -> p = q.
Proof.
  intros H.
  rewrite <- (proj2 (killLineTarget_source y p)).
  rewrite <- (proj2 (killLineTarget_source y q)).
  now rewrite H.
Qed.

Lemma killLinesSource_injective (lines : list Z) (p q : Position) :
  killLinesSource lines p = killLinesSource lines q -> p = q.
Proof.
  induction lines as [|l ls IH]; simpl; [auto|].
  intros H. apply IH. eapply killLineSource_injective; eauto.
Qed.

Lemma killLinesSource_not_listed (lines : list Z) (q : Position) :
  StronglySorted Z.lt lines -> ~ In (snd (killLinesSource lines q)) lines.
Proof.
  intros Hs. induction Hs as [|l ls Hs IH Hall]; simpl; [tauto|].
  rewrite Forall_forall in Hall.
  destruct (killLinesSource ls q) as [x z]; simpl in IH.
  unfold killLineSource; simpl.
  destruct (Z.gtb_spec z l) as [E|E]; simpl; intros [H|H].
  - lia.
  - contradiction.
  - lia.
  - apply Hall in H. lia.
Qed.

Lemma linesBelow_all (ls : list Z) (z : Z) :
  Forall (Z.lt z) ls -> linesBelow ls z = List.length ls.
Proof.
  unfold linesBelow. intros H.
  induction H as [|l ls Hl Hall IH]; simpl; [reflexivity|].
  destruct (Z.ltb_spec z l); [simpl; now rewrite IH | lia].
Qed.

Lemma linesBelow_cons (l : Z) (ls : list Z) (oy : Z) :
  linesBelow (l :: ls) oy
  = ((if (oy <? l)%Z then 1 else 0) + linesBelow ls oy)%nat.
Proof.
  unfold linesBelow. simpl. destruct (oy <? l); reflexivity.
Qed.

Lemma killLinesSource_target (lines : list Z) :
  StronglySorted Z.lt lines ->
  forall x oy,
    ~ In oy lines ->
    killLinesSource lines (x, oy + Z.of_nat (linesBelow lines oy)) = (x, oy).
Proof.
  intros Hs. induction Hs as [|l ls Hs IH Hall]; intros x oy Hnot.
  - simpl. f_equal. unfold linesBelow. simpl. lia.
  - simpl in Hnot.
    assert (Hall' : forall l', In l' ls -> l < l')
      by now rewrite Forall_forall in Hall.
    change (killLinesSource (l :: ls) ?q)
      with (killLineSource l (killLinesSource ls q)).
    rewrite linesBelow_cons.
    destruct (Z.ltb_spec oy l) as [E|E].
    + assert (H0 : linesBelow ls oy = List.length ls).
      { apply linesBelow_all, Forall_forall. intros l' Hl'.
        apply Hall' in Hl'. lia. }
      assert (H1 : linesBelow ls (oy + 1) = List.length ls).
      { apply linesBelow_all, Forall_forall. intros l' Hl'.
        apply Hall' in Hl'. lia. }
      replace (oy + Z.of_nat (1 + linesBelow ls oy))
        with (oy + 1 + Z.of_nat (linesBelow ls (oy + 1))) by lia.
      rewrite IH.
      * unfold killLineSource; simpl.
        destruct (Z.gtb_spec (oy + 1) l); [lia|].
        now rewrite Z.add_simpl_r.
      * intros Hin. apply Hall' in Hin. lia.
    + simpl Nat.add. rewrite IH by tauto.
      unfold killLineSource; simpl.
      destruct (Z.gtb_spec oy l); [reflexivity | lia].
Qed.

(** The cells of the board after the lines of a sorted list are cleared. *)
Lemma fold_killLine_cells (lines : list Z) (b : Board) :
  NoDupKeys b -> StronglySorted Z.lt lines ->
  (forall q color,
      get (fold_left killLine lines b) q = Some color ->
      exists x oy,
        get b (x, oy) = Some color /\ ~ In oy lines
        /\ q = (x, oy + Z.of_nat (linesBelow lines oy)))
  /\ (forall x oy color,
        get b (x, oy) = Some color -> ~ In oy lines ->
        get (fold_left killLine lines b)
            (x, oy + Z.of_nat (linesBelow lines oy)) = Some color).
Proof.
  intros Hb Hs. split.
  - intros q color Hget. rewrite get_fold_killLine in Hget by exact Hb.
    pose proof (killLinesSource_not_listed lines q Hs) as Hnot.
    destruct (killLinesSource lines q) as [x oy] eqn:E. simpl in Hnot.
    exists x, oy. split; [exact Hget|]. split; [exact Hnot|].
    apply (killLinesSource_injective lines).
    rewrite E. symmetry. now apply killLinesSource_target.
  - intros x oy color Hget Hnot.
    rewrite get_fold_killLine by exact Hb.
    now rewrite killLinesSource_target.
Qed.

(** ** Well-formed game states *)

Lemma piece_NoDupKeys (idx : nat) :
  NoDupKeys (nth idx POSSIBLE_PIECES (newBoard [])).
Proof.
  do 7 (destruct idx as [|idx]; [apply noDupKeysb_sound; reflexivity|]).
  destruct idx; apply noDupKeysb_sound; reflexivity.
Qed.

Lemma rotated_NoDupKeys (b : Board) : NoDupKeys b -> NoDupKeys (rotated b).
Proof. intros Hb. now apply rotated_entries. Qed.

Lemma rotatedCounter_NoDupKeys (b : Board) :
  NoDupKeys b -> NoDupKeys (rotatedCounter b).
Proof.
  intros Hb. unfold rotatedCounter. now do 3 apply rotated_NoDupKeys.
Qed.

Lemma shifted_NoDupKeys (b : Board) (shift : Z * Z) :
  NoDupKeys b -> NoDupKeys (shifted b shift).
Proof. intros Hb. now apply shifted_entries. Qed.

Lemma merged_NoDupKeys (a b r : Board) :
  NoDupKeys a -> NoDupKeys b -> merged a b = Some r -> NoDupKeys r.
Proof.
  intros Ha Hb H. rewrite (merged_spec a b Hb) in H.
  destruct (existsb (fun e => map_has a (fst e)) b) eqn:E; [discriminate|].
  inversion H; subst. unfold NoDupKeys. rewrite map_app.
  apply NoDup_app; [exact Ha | exact Hb|].
  intros k Hka Hkb.
  assert (Hov : existsb (fun e => map_has a (fst e)) b = true)
    by (apply overlap_iff; now exists k).
  congruence.
Qed.

Section WellFormed.

Variable metrics : Metrics.

Local Arguments tryKicks : simpl never.

Lemma spawnRotations_NoDupKeys (board : Board) (rotations : nat) :
  forall (falling : Board) (shift : Z * Z),
    NoDupKeys falling ->
    NoDupKeys (fst (spawnRotations metrics board rotations falling shift)).
Proof.
  induction rotations as [|rest IH]; intros falling shift H; simpl.
  - exact H.
  - match goal with |- context [tryKicks ?m ?b ?a ?s ?d] =>
      destruct (tryKicks m b a s d) as [testShift|] end.
    + apply IH. now apply shifted_NoDupKeys, rotatedCounter_NoDupKeys.
    + now apply IH.
Qed.

Lemma createNewFalling_wellFormed (board : Board) (env : Env) :
  NoDupKeys board -> wellFormed metrics (createNewFalling metrics board env).
Proof.
  intros Hb. unfold createNewFalling.
  match goal with |- context [if ?c then _ else _] => destruct c end; simpl.
  - exact Hb.
  - split; [exact Hb|]. apply spawnRotations_NoDupKeys, piece_NoDupKeys.
Qed.

Lemma attemptRotation_wellFormed (st : GameState) (clockwise : bool) :
  wellFormed metrics st ->
  wellFormed metrics (attemptRotation metrics st clockwise).
Proof.
  destruct st as [board falling shift t| |]; simpl; auto.
  intros [Hb Hf].
  match goal with |- context [tryKicks ?m ?b ?a ?s ?d] =>
    destruct (tryKicks m b a s d) as [testShift|] end; simpl.
  - split; [exact Hb|]. apply shifted_NoDupKeys.
    destruct clockwise;
      [now apply rotated_NoDupKeys | now apply rotatedCounter_NoDupKeys].
  - now split.
Qed.

(** The lock sequence, as both the key handler and the frame have it. *)
Lemma lock_wellFormed (board falling : Board) (shift : Z * Z)
    (mergedBoard : Board) (env : Env) (stamp : Z) :
  NoDupKeys board -> NoDupKeys falling ->
  merged board (shifted falling shift) = Some mergedBoard ->
  wellFormed metrics
    (if negb (Nat.eqb
                (List.length
                   (wholeLines mergedBoard (boardX metrics) (boardY metrics)))
                0)
     then Flashing mergedBoard 0 stamp
            (wholeLines mergedBoard (boardX metrics) (boardY metrics))
     else createNewFalling metrics mergedBoard env).
Proof.
  intros Hb Hf Hm.
  assert (Hmb : NoDupKeys mergedBoard).
  { eapply merged_NoDupKeys; [exact Hb | | exact Hm].
    now apply shifted_NoDupKeys. }
  match goal with |- context [if ?c then _ else _] => destruct c end.
  - simpl. split; [exact Hmb|]. split; [reflexivity|].
    unfold FLASH_STAGES. lia.
  - now apply createNewFalling_wellFormed.
Qed.

Lemma handleKeyDown_wellFormed (env : Env) (key : string) (prev : GameState) :
  wellFormed metrics prev ->
  wellFormed metrics (handleKeyDown metrics env key prev).
Proof.
  intros H. destruct prev as [board falling shift t| |board];
  unfold handleKeyDown.
  - destruct (MOVE_DIRECTIONS key) as [move|].
    + match goal with |- context [if ?c then _ else _] => destruct c end;
        [exact H|].
      destruct (snd move =? 1); [|exact H].
      destruct (merged board (shifted falling shift)) as [mergedBoard|] eqn:Em;
        [|exact H].
      destruct H as [Hb Hf].
      exact (lock_wellFormed board falling shift mergedBoard env
               (date_now env) Hb Hf Em).
    + destruct (key =? "ArrowUp")%string;
        [now apply attemptRotation_wellFormed|].
      destruct (key =? " ")%string;
        [now apply attemptRotation_wellFormed | exact H].
  - exact H.
  - destruct (key =? "Enter")%string; [|exact H].
    apply createNewFalling_wellFormed. constructor.
Qed.

Lemma gameLoop_wellFormed (env : Env) (currentTime : Z) (s : LoopState) :
  wellFormed metrics (gameState s) ->
  wellFormed metrics (gameState (gameLoop metrics env currentTime s)).
Proof.
  unfold gameLoop.
  destruct (lastTime s) as [last|]; [|auto].
  destruct (gameState s) as [board falling shift t|board stage lss lines|board];
    intros H.
  - destruct (currentTime - t >=? FALL_INTERVAL); [|exact H].
    match goal with |- context [if ?c then _ else _] => destruct c end;
      [exact H|].
    destruct H as [Hb Hf].
    destruct (merged board (shifted falling shift)) as [mergedBoard|] eqn:Em;
      [|exact Hb].
    pose proof (lock_wellFormed board falling shift mergedBoard env
                  currentTime Hb Hf Em) as Hl.
    match goal with |- context [if ?c then _ else _] => destruct c end;
      exact Hl.
  - destruct H as [Hb [Hl Hstage]].
    destruct (flashAccumulator s + (currentTime - last) >=? FLASH_DURATION);
      [|simpl; auto].
    destruct (Z.ltb_spec (stage + 1) FLASH_STAGES) as [E|E]; simpl.
    + split; [exact Hb|]. split; [exact Hl | lia].
    + apply createNewFalling_wellFormed. now apply fold_killLine_NoDupKeys.
  - exact H.
Qed.

Lemma reachable_wellFormed (s : LoopState) :
  reachable metrics s -> wellFormed metrics (gameState s).
Proof.
  intros H. induction H as [env|env ev s Hs IH].
  - apply createNewFalling_wellFormed. constructor.
  - destruct ev as [key|currentTime]; simpl.
    + now apply handleKeyDown_wellFormed.
    + now apply gameLoop_wellFormed.
Qed.

End WellFormed.

(** ** The Flashing state *)

Lemma gameLoop_flashing (metrics : Metrics) (env : Env) (currentTime : Z)
    (s : LoopState) (board : Board) (stage lss : Z) (lines : list Z) :
  gameState s = Flashing board stage lss lines ->
  gameState (gameLoop metrics env currentTime s) =
  if stageIncrement s currentTime then
    if stage + 1 <? FLASH_STAGES then Flashing board (stage + 1) currentTime lines
    else createNewFalling metrics (fold_left killLine lines board) env
  else Flashing board stage lss lines.
Proof.
  intros Hst. unfold gameLoop, stageIncrement. rewrite Hst.
  destruct (lastTime s) as [last|]; simpl; [|reflexivity].
  destruct (flashAccumulator s + (currentTime - last) >=? FLASH_DURATION);
    simpl; [|reflexivity].
  destruct (stage + 1 <? FLASH_STAGES); reflexivity.
Qed.

Lemma step_flashing (metrics : Metrics) (env : Env) (ev : Event)
    (s : LoopState) (board : Board) (stage lss : Z) (lines : list Z) :
  gameState s = Flashing board stage lss lines ->
  gameState (step metrics env ev s) =
  match ev with
  | KeyDown _ => Flashing board stage lss lines
  | Frame currentTime =>
      if stageIncrement s currentTime then
        if stage + 1 <? FLASH_STAGES then
          Flashing board (stage + 1) currentTime lines
        else createNewFalling metrics (fold_left killLine lines board) env
      else Flashing board stage lss lines
  end.
Proof.
  intros Hst. destruct ev as [key|currentTime]; simpl.
  - now rewrite Hst.
  - now apply gameLoop_flashing.
Qed.

Lemma runEvents_flashing (metrics : Metrics) (events : list (Env * Event)) :
  forall (s : LoopState) (board : Board) (stage lss : Z) (lines : list Z),
    gameState s = Flashing board stage lss lines ->
    stage + Z.of_nat (stageIncrements metrics events s) < FLASH_STAGES ->
    exists lss',
      gameState (runEvents metrics events s)
      = Flashing board
          (stage + Z.of_nat (stageIncrements metrics events s)) lss' lines.
Proof.
  induction events as [|[env ev] rest IH];
    intros s board stage lss lines Hst Hlt.
  - simpl. exists lss. now rewrite Z.add_0_r.
  - simpl in *.
    pose proof (step_flashing metrics env ev s board stage lss lines Hst)
      as Hstep.
    destruct ev as [key|t].
    + destruct (IH _ _ _ _ _ Hstep) as [lss' H]; [lia|].
      exists lss'. rewrite H. f_equal.
    + destruct (stageIncrement s t).
      * destruct (Z.ltb_spec (stage + 1) FLASH_STAGES) as [E|E]; [|lia].
        destruct (IH _ _ _ _ _ Hstep) as [lss' H]; [lia|].
        exists lss'. rewrite H. f_equal. lia.
      * destruct (IH _ _ _ _ _ Hstep) as [lss' H]; [lia|].
        exists lss'. rewrite H. f_equal.
Qed.

Lemma createNewFalling_board (metrics : Metrics) (board : Board) (env : Env) :
  stateBoard (createNewFalling metrics board env) = board.
Proof.
  destruct (createNewFalling_cases metrics board env)
    as [[_ [falling [shift [-> _]]]] | [_ ->]]; reflexivity.
Qed.

Lemma reachable_runEvents (metrics : Metrics) (events : list (Env * Event)) :
  forall s, reachable metrics s -> reachable metrics (runEvents metrics events s).
Proof.
  induction events as [|e rest IH]; intros s Hs; simpl; [exact Hs|].
  apply IH. now apply reach_step.
Qed.

(** C4, as the code has it.  A Flashing state of the machine, created at
    stage 0, stays Flashing, on the same board and lines, through its first
    17 stage increments, whatever keys are pressed meanwhile; the frame that
    makes the 18th leaves Flashing: [killLine] is applied for every entry of
    [lines], which are the full rows in ascending order, and the spawn
    procedure runs on the result, which is the locked board of the new
    state.  In that board the cells that were in the listed rows are gone
    and every other cell is kept with its colour, moved down by the number
    of listed rows below it; cells moved down may come to lie at a listed
    row index. *)
Theorem flashing_ends_after_stage_count (metrics : Metrics) (s : LoopState)
    (board : Board) (lastStageSwitch : Z) (lines : list Z)
    (events : list (Env * Event)) (env : Env) (currentTime : Z)
    (Hreach : reachable metrics s)
    (Hstate : gameState s = Flashing board 0 lastStageSwitch lines)
    (Hcount : stageIncrements metrics events s = 17%nat)
    (Hlast : stageIncrement (runEvents metrics events s) currentTime = true) :
  let cleared := fold_left killLine lines board in
  let result := gameLoop metrics env currentTime (runEvents metrics events s) in
  (exists lss, gameState (runEvents metrics events s)
               = Flashing board 17 lss lines)
  /\ lines = wholeLines board (boardX metrics) (boardY metrics)
  /\ StronglySorted Z.lt lines
  /\ gameState result = createNewFalling metrics cleared env
  /\ stateBoard (gameState result) = cleared
  /\ (forall q color,
        get cleared q = Some color ->
        exists x oy,
          get board (x, oy) = Some color /\ ~ In oy lines
          /\ q = (x, oy + Z.of_nat (linesBelow lines oy)))
  /\ (forall x oy color,
        get board (x, oy) = Some color -> ~ In oy lines ->
        get cleared (x, oy + Z.of_nat (linesBelow lines oy)) = Some color).
Proof.
  intros cleared result.
  pose proof (reachable_wellFormed metrics s Hreach) as Hwf.
  rewrite Hstate in Hwf. destruct Hwf as [Hboard [Hlines _]].
  assert (Hsorted : StronglySorted Z.lt lines)
    by (rewrite Hlines; apply wholeLines_sorted).
  destruct (runEvents_flashing metrics events s board 0 lastStageSwitch lines
              Hstate) as [lss H17].
  { rewrite Hcount. unfold FLASH_STAGES. lia. }
  rewrite Hcount in H17. simpl in H17.
  assert (Hres : gameState result = createNewFalling metrics cleared env).
  { unfold result.
    rewrite (gameLoop_flashing metrics env currentTime _ _ _ _ _ H17).
    rewrite Hlast. reflexivity. }
  split; [now exists lss|]. split; [exact Hlines|]. split; [exact Hsorted|].
  split; [exact Hres|].
  split; [rewrite Hres; apply createNewFalling_board|].
  apply fold_killLine_cells; assumption.
Qed.

Lemma stackEvents_run :
  runEvents DEFAULT_METRICS stackEvents (initial DEFAULT_METRICS envO)
  = flashStart.
Proof. vm_compute. reflexivity. Qed.

Lemma flashStart_reachable : reachable DEFAULT_METRICS flashStart.
Proof.
  rewrite <- stackEvents_run. apply reachable_runEvents, reach_initial.
Qed.

Lemma flashing_ends_after_stage_count_witness :
  (reachable DEFAULT_METRICS flashStart
   /\ gameState flashStart = Flashing stackBoard 0 0 [19]
   /\ stageIncrements DEFAULT_METRICS flashEvents flashStart = 17%nat
   /\ stageIncrement (runEvents DEFAULT_METRICS flashEvents flashStart) 900
      = true)
  /\ stateBoard
       (gameState
          (gameLoop DEFAULT_METRICS exampleEnv 900
             (runEvents DEFAULT_METRICS flashEvents flashStart)))
     = fold_left killLine [19] stackBoard.
Proof.
  split.
  - split; [exact flashStart_reachable|].
    split; [reflexivity|]. split; reflexivity.
  - apply (proj1 (proj2 (proj2 (proj2 (proj2
             (flashing_ends_after_stage_count DEFAULT_METRICS flashStart
                stackBoard 0 [19] flashEvents exampleEnv 900
                flashStart_reachable eq_refl eq_refl eq_refl)))))).
Defined.

(** C4 as the specification words it does not hold of the code: in the game
    [stackEvents] the machine reaches a Flashing state whose [lines] are
    [[19]]; after its 18th stage increment the machine has left Flashing and
    row 19 of the locked board is occupied, by the cells that stood in row 18
    and moved down. *)
Lemma flashing_lines_absent_as_stated_fails :
  reachable DEFAULT_METRICS flashStart
  /\ gameState flashStart
     = Flashing stackBoard 0 0 (wholeLines stackBoard 8 20)
  /\ wholeLines stackBoard 8 20 = [19]
  /\ stageIncrements DEFAULT_METRICS flashEvents flashStart = 17%nat
  /\ stageIncrement (runEvents DEFAULT_METRICS flashEvents flashStart) 900
     = true
  /\ ~ (forall x y,
          In y (wholeLines stackBoard 8 20) ->
          get (stateBoard
                 (gameState
                    (gameLoop DEFAULT_METRICS exampleEnv 900
                       (runEvents DEFAULT_METRICS flashEvents flashStart))))
              (x, y) = None).
Proof.
  split; [exact flashStart_reachable|].
  split; [reflexivity|]. split; [reflexivity|].
  split; [reflexivity|]. split; [reflexivity|].
  intros H. specialize (H 0 19 (or_introl eq_refl)).
  vm_compute in H. discriminate H.
Qed.

(** * Further properties of the board *)

(** ** [set], [delete] and the constructor *)

Lemma map_set_keys (m : JsMap) (k : Position) (v : Color) :
  List.map fst (map_set m k v)
  = if map_has m k then List.map fst m else List.map fst m ++ [k].
Proof.
  induction m as [|[k' v'] rest IH]; simpl; [reflexivity|].
  destruct (pos_eqb k' k); simpl; [reflexivity|].
  rewrite IH. destruct (map_has rest k); reflexivity.
Qed.

Lemma map_set_NoDupKeys (m : JsMap) (k : Position) (v : Color) :
  NoDupKeys m -> NoDupKeys (map_set m k v).
Proof.
  unfold NoDupKeys. intros H. rewrite map_set_keys.
  destruct (map_has m k) eqn:E; [exact H|].
  apply NoDup_app; [exact H | repeat constructor; simpl; tauto|].
  intros a Ha [<-|[]]. apply map_has_false in E. contradiction.
Qed.

Lemma map_get_set (m : JsMap) (k q : Position) (v : Color) :
  map_get (map_set m k v) q = if pos_eqb k q then Some v else map_get m q.
Proof.
  induction m as [|[k' v'] rest IH]; simpl; [reflexivity|].
  destruct (pos_eqb k' k) eqn:E; simpl.
  - apply pos_eqb_eq in E. subst. destruct (pos_eqb k q); reflexivity.
  - destruct (pos_eqb k' q) eqn:E'; [|exact IH].
    destruct (pos_eqb k q) eqn:E''; [|reflexivity].
    apply pos_eqb_eq in E', E''. subst. rewrite pos_eqb_refl in E.
    discriminate.
Qed.

Lemma map_delete_keys_subset (m : JsMap) (k a : Position) :
  In a (List.map fst (map_delete m k)) -> In a (List.map fst m).
Proof.
  induction m as [|[k' v'] rest IH]; simpl; [tauto|].
  destruct (pos_eqb k' k); simpl; tauto.
Qed.

Lemma map_delete_NoDupKeys (m : JsMap) (k : Position) :
  NoDupKeys m -> NoDupKeys (map_delete m k).
Proof.
  unfold NoDupKeys.
  induction m as [|[k' v'] rest IH]; simpl; intros H; [constructor|].
  inversion H as [|? ? Hnotin Hnd]; subst.
  destruct (pos_eqb k' k); simpl; [exact Hnd|].
  constructor; [|auto].
  intros Hin. apply Hnotin. eapply map_delete_keys_subset; eauto.
Qed.

Lemma map_get_delete (m : JsMap) (k q : Position) :
  NoDupKeys m ->
  map_get (map_delete m k) q = if pos_eqb k q then None else map_get m q.
Proof.
  unfold NoDupKeys.
  induction m as [|[k' v'] rest IH]; simpl; intros H.
  - destruct (pos_eqb k q); reflexivity.
  - inversion H as [|? ? Hnotin Hnd]; subst.
    destruct (pos_eqb k' k) eqn:E; simpl.
    + apply pos_eqb_eq in E. subst.
      destruct (pos_eqb k q) eqn:E'; [|reflexivity].
      apply pos_eqb_eq in E'. subst.
      change (map_get rest q = None).
      rewrite <- map_has_false in Hnotin. rewrite map_has_get in Hnotin.
      destruct (map_get rest q); [discriminate | reflexivity].
    + rewrite IH by exact Hnd.
      destruct (pos_eqb k' q) eqn:E'; [|reflexivity].
      destruct (pos_eqb k q) eqn:E''; [|reflexivity].
      apply pos_eqb_eq in E', E''. subst. rewrite pos_eqb_refl in E.
      discriminate.
Qed.

(** X1.  [set] then [get]: the position set holds the new colour, every
    other position is as before, whether the position was occupied or not;
    and [set] keeps the keys of the map unique. *)
Theorem get_set (b : Board) (pos q : Position) (color : Color) :
  get (set b pos color) pos = Some color
  /\ (q <> pos -> get (set b pos color) q = get b q)
  /\ (NoDupKeys b -> NoDupKeys (set b pos color)).
Proof.
  unfold get, set. rewrite !map_get_set, pos_eqb_refl.
  split; [reflexivity|]. split.
  - intros Hne. destruct (pos_eqb pos q) eqn:E; [|reflexivity].
    apply pos_eqb_eq in E. congruence.
  - apply map_set_NoDupKeys.
Qed.

Lemma get_set_witness :
  (0, 5) <> (0, 1) /\ get (set columnBoard (0, 1) Cyan) (0, 5) = None.
Proof.
  split; [discriminate|].
  apply (proj1 (proj2 (get_set columnBoard (0, 1) (0, 5) Cyan))).
  discriminate.
Defined.

(** X2.  [delete] then [get]: on a board with unique keys the deleted
    position is empty afterwards and every other position is as before;
    deleting an empty position changes nothing that [get] can see. *)
Theorem get_delete (b : Board) (pos q : Position) (Hb : NoDupKeys b) :
  get (delete b pos) pos = None
  /\ (q <> pos -> get (delete b pos) q = get b q)
  /\ NoDupKeys (delete b pos).
Proof.
  unfold get, delete. rewrite !map_get_delete by exact Hb.
  rewrite pos_eqb_refl. split; [reflexivity|]. split.
  - intros Hne. destruct (pos_eqb pos q) eqn:E; [|reflexivity].
    apply pos_eqb_eq in E. congruence.
  - now apply map_delete_NoDupKeys.
Qed.

Lemma get_delete_witness :
  NoDupKeys columnBoard /\ get (delete columnBoard (0, 1)) (0, 1) = None.
Proof.
  split; [apply noDupKeysb_sound; reflexivity|].
  apply (proj1 (get_delete columnBoard (0, 1) (0, 0)
                  (noDupKeysb_sound columnBoard eq_refl))).
Defined.

Lemma fold_set_NoDupKeys (es : list (Position * Color)) :
  forall m : JsMap,
    NoDupKeys m ->
    NoDupKeys (fold_left (fun m e => map_set m (fst e) (snd e)) es m).
Proof.
  induction es as [|e es IH]; intros m H; simpl; [exact H|].
  apply IH. now apply map_set_NoDupKeys.
Qed.

Lemma fold_set_get (es : list (Position * Color)) :
  forall (m : JsMap) (q : Position),
    map_get (fold_left (fun m e => map_set m (fst e) (snd e)) es m) q
    = match map_get (rev es) q with
      | Some c => Some c
      | None => map_get m q
      end.
Proof.
  induction es as [|[k v] es IH]; intros m q; simpl; [reflexivity|].
  rewrite IH, map_get_app, map_get_set. simpl.
  destruct (map_get (rev es) q); [reflexivity|].
  destruct (pos_eqb k q); reflexivity.
Qed.

Lemma newBoard_unique_keys (es : list (Position * Color)) :
  NoDupKeys (newBoard es).
Proof. apply fold_set_NoDupKeys. constructor. Qed.

Lemma get_newBoard (es : list (Position * Color)) (pos : Position) :
  get (newBoard es) pos = lastEntry es pos.
Proof.
  unfold get, newBoard, map_of_entries, lastEntry.
  rewrite fold_set_get. destruct (map_get (rev es) pos); reflexivity.
Qed.

(** X3.  The constructor accepts any list of entries: the board it builds
    has unique keys, and where the list names a position more than once the
    last entry wins; a position the list does not name is empty. *)
Theorem newBoard_last_entry_wins (es : list (Position * Color)) :
  NoDupKeys (newBoard es)
  /\ (forall pos, get (newBoard es) pos = lastEntry es pos)
  /\ (forall pos, ~ In pos (List.map fst es) -> get (newBoard es) pos = None)
  /\ (forall before pos color after,
        es = before ++ (pos, color) :: after ->
        ~ In pos (List.map fst after) ->
        get (newBoard es) pos = Some color).
Proof.
  pose proof (get_newBoard es) as Hget.
  split; [apply newBoard_unique_keys|].
  split; [exact Hget|]. split.
  - intros pos Hnot. rewrite Hget. unfold lastEntry.
    destruct (map_get (rev es) pos) eqn:E; [|reflexivity].
    exfalso. apply Hnot.
    assert (Hin : In pos (List.map fst (rev es))).
    { apply map_has_In. rewrite map_has_get, E. reflexivity. }
    rewrite map_rev in Hin. now apply in_rev.
  - intros before pos color after -> Hnot. rewrite Hget. unfold lastEntry.
    rewrite rev_app_distr. simpl. rewrite <- app_assoc, map_get_app.
    destruct (map_get (rev after) pos) eqn:E.
    + exfalso. apply Hnot.
      assert (Hin : In pos (List.map fst (rev after))).
      { apply map_has_In. rewrite map_has_get, E. reflexivity. }
      rewrite map_rev in Hin. now apply in_rev.
    + simpl. now rewrite pos_eqb_refl.
Qed.

(** ** [fromPositions] *)

Lemma fromPositions_fold (positions : list Position) (color : Color) :
  forall acc : Board,
    fold_left (fun boardAccumulator pos => set boardAccumulator pos color)
              positions acc
    = fold_left (fun m e => map_set m (fst e) (snd e))
                (List.map (fun pos => (pos, color)) positions) acc.
Proof.
  induction positions as [|pos rest IH]; intros acc; simpl; [reflexivity|].
  apply IH.
Qed.

(** X4.  [fromPositions positions color] is the board whose occupied cells
    are exactly the listed positions, each of the one colour; a position
    listed twice gives one cell, so the board has unique keys and at most as
    many cells as positions. *)
Theorem fromPositions_cells (positions : list Position) (color : Color) :
  (forall pos c,
      get (fromPositions positions color) pos = Some c <->
      In pos positions /\ c = color)
  /\ NoDupKeys (fromPositions positions color)
  /\ (List.length (entries (fromPositions positions color))
      <= List.length positions)%nat.
Proof.
  unfold fromPositions. rewrite fromPositions_fold.
  fold (map_of_entries (List.map (fun pos => (pos, color)) positions)).
  fold (newBoard (List.map (fun pos => (pos, color)) positions)).
  set (es := List.map (fun pos => (pos, color)) positions).
  pose proof (newBoard_unique_keys es) as Hnd.
  pose proof (get_newBoard es) as Hget.
  split; [|split; [exact Hnd|]].
  - intros pos c. rewrite Hget. unfold lastEntry, es.
    rewrite <- map_rev.
    assert (Hgen : forall l : list Position,
               map_get (List.map (fun pos => (pos, color)) l) pos = Some c
               <-> In pos l /\ c = color).
    { induction l as [|a l IH]; simpl.
      - split; [discriminate | tauto].
      - destruct (pos_eqb a pos) eqn:E.
        + apply pos_eqb_eq in E. subst. split.
          * intros H. inversion H. auto.
          * intros [_ ->]. reflexivity.
        + apply pos_eqb_neq in E. rewrite IH. split; [tauto|].
          intros [[H|H] Hc]; [contradiction | auto]. }
    rewrite Hgen. rewrite <- in_rev. reflexivity.
  - unfold entries.
    assert (Hincl : incl (List.map fst (newBoard es)) positions).
    { intros pos Hin. apply map_has_In in Hin.
      rewrite map_has_get in Hin.
      destruct (map_get (newBoard es) pos) as [c|] eqn:E; [|discriminate].
      change (get (newBoard es) pos = Some c) in E.
      rewrite Hget in E. unfold lastEntry in E.
      assert (Hin' : In pos (List.map fst (rev es))).
      { apply map_has_In. rewrite map_has_get, E. reflexivity. }
      rewrite map_rev in Hin'. apply in_rev in Hin'.
      unfold es in Hin'. rewrite map_map in Hin'. simpl in Hin'.
      now rewrite map_id in Hin'. }
    change (List.length (newBoard es) <= List.length positions)%nat.
    rewrite <- (length_map fst (newBoard es)).
    apply NoDup_incl_length; [exact Hnd | exact Hincl].
Qed.

(** ** [contained] *)

Lemma contained_forall (b : Board) (w h : Z) :
  contained b w h = true <->
  (forall x y, In (x, y) (List.map fst b) -> 0 <= x < w /\ 0 <= y < h).
Proof.
  unfold contained, entries. rewrite forallb_forall. split.
  - intros H x y Hin. apply in_map_iff in Hin.
    destruct Hin as [[[ex ey] c] [Ee He]]. specialize (H _ He).
    simpl in *. inversion Ee; subst. rewrite !andb_true_iff in H. lia.
  - intros H [[x y] c] He. simpl.
    destruct (H x y) as [Hx Hy].
    { apply in_map_iff. now exists ((x, y), c). }
    rewrite !andb_true_iff. lia.
Qed.

Lemma occupied_In (b : Board) (pos : Position) :
  occupied b pos <-> In pos (List.map fst b).
Proof. rewrite <- map_has_occupied. apply map_has_In. Qed.

Lemma contained_occupied (b : Board) (w h : Z) :
  contained b w h = true <->
  (forall x y, occupied b (x, y) -> 0 <= x < w /\ 0 <= y < h).
Proof.
  rewrite contained_forall. split; intros H x y Hin; apply H.
  - now apply occupied_In.
  - now apply occupied_In.
Qed.

(** X5.  [contained b w h] holds exactly when every occupied cell (x, y)
    has 0 <= x < w and 0 <= y < h; so the empty board is contained in any
    bounds, also empty ones, a board with a cell is contained in no bounds
    with w <= 0 or h <= 0, and containment survives enlarging the bounds. *)
Theorem contained_spec (b : Board) (w h : Z) :
  (contained b w h = true <->
   forall x y, occupied b (x, y) -> 0 <= x < w /\ 0 <= y < h)
  /\ contained (newBoard []) w h = true
  /\ (forall pos, occupied b pos -> w <= 0 \/ h <= 0 ->
      contained b w h = false)
  /\ (forall w' h', contained b w h = true -> w <= w' -> h <= h' ->
      contained b w' h' = true).
Proof.
  split; [apply contained_occupied|]. split; [reflexivity|]. split.
  - intros [x y] Hocc Hwh.
    destruct (contained b w h) eqn:E; [|reflexivity].
    apply contained_occupied with (x := x) (y := y) in E; [lia | exact Hocc].
  - intros w' h' H Hw Hh. rewrite contained_occupied in *.
    intros x y Hocc. specialize (H x y Hocc). lia.
Qed.

Lemma contained_mono (b : Board) (w h w' h' : Z) :
  contained b w h = true -> w <= w' -> h <= h' -> contained b w' h' = true.
Proof.
  intros H Hw Hh. rewrite contained_occupied in *.
  intros x y Hocc. specialize (H x y Hocc). lia.
Qed.

(** ** [negativeShift] and the normalisation of a rotated piece *)

Lemma negativeShift_fold (es : list (Position * Color)) :
  forall acc : Z * Z,
    let r :=
      fold_left
        (fun acc e =>
           (Z.min (fst acc) (fst (fst e)), Z.min (snd acc) (snd (fst e))))
        es acc in
    (fst r <= fst acc /\ snd r <= snd acc)
    /\ (forall x y, In (x, y) (List.map fst es) -> fst r <= x /\ snd r <= y)
    /\ (fst r = fst acc \/ exists y, In (fst r, y) (List.map fst es))
    /\ (snd r = snd acc \/ exists x, In (x, snd r) (List.map fst es)).
Proof.
  induction es as [|[[ex ey] c] es IH]; intros acc; simpl.
  - repeat split; try lia; try tauto; left; reflexivity.
  - specialize (IH (Z.min (fst acc) ex, Z.min (snd acc) ey)).
    simpl in IH. destruct IH as [[H1 H2] [H3 [H4 H5]]].
    split; [lia|]. split; [|split].
    + intros x y [E|Hin]; [inversion E; subst; lia | now apply H3].
    + destruct H4 as [H4|[y H4]]; [|right; eauto].
      destruct (Z.min_spec (fst acc) ex) as [[_ Hm]|[_ Hm]];
        [left; lia | right; exists ey; left; f_equal; lia].
    + destruct H5 as [H5|[x H5]]; [|right; eauto].
      destruct (Z.min_spec (snd acc) ey) as [[_ Hm]|[_ Hm]];
        [left; lia | right; exists ex; left; f_equal; lia].
Qed.

Lemma negativeShift_bounds (b : Board) :
  (fst (negativeShift b) <= 0 /\ snd (negativeShift b) <= 0)
  /\ (forall x y,
      occupied b (x, y) ->
      fst (negativeShift b) <= x /\ snd (negativeShift b) <= y)
  /\ (fst (negativeShift b) = 0 \/ exists y, occupied b (fst (negativeShift b), y))
  /\ (snd (negativeShift b) = 0 \/ exists x, occupied b (x, snd (negativeShift b))).
Proof.
  unfold negativeShift, entries.
  destruct (negativeShift_fold b (0, 0)) as [H1 [H2 [H3 H4]]]. simpl in *.
  split; [exact H1|]. split; [|split].
  - intros x y Hocc. apply H2. now apply occupied_In.
  - destruct H3 as [H3|[y H3]]; [now left|].
    right. exists y. now apply occupied_In.
  - destruct H4 as [H4|[x H4]]; [now left|].
    right. exists x. now apply occupied_In.
Qed.

(** X6.  [negativeShift] is the pair of the least x and the least y over
    the occupied cells, each capped at 0: neither component is positive,
    each is a lower bound for its coordinate and is either 0 or the
    coordinate of some cell; the empty board gives (0, 0). *)
Theorem negativeShift_spec (b : Board) :
  let minXY := negativeShift b in
  (fst minXY <= 0 /\ snd minXY <= 0)
  /\ (forall x y, occupied b (x, y) -> fst minXY <= x /\ snd minXY <= y)
  /\ (fst minXY = 0 \/ exists y, occupied b (fst minXY, y))
  /\ (snd minXY = 0 \/ exists x, occupied b (x, snd minXY))
  /\ negativeShift (newBoard []) = (0, 0).
Proof.
  intros minXY. unfold minXY.
  destruct (negativeShift_bounds b) as [H1 [H2 [H3 H4]]].
  repeat split; try tauto; try apply H1; try apply (proj1 (H2 _ _ H));
    try apply (proj2 (H2 _ _ H)).
Qed.

(** ** [shifted] *)

Lemma map_get_mapped (f g : Position -> Position) (b : JsMap) (q : Position) :
  (forall p, f p = q <-> p = g q) ->
  map_get (List.map (fun e => (f (fst e), snd e)) b) q = map_get b (g q).
Proof.
  intros Hfg. induction b as [|[k v] rest IH]; simpl; [reflexivity|].
  destruct (pos_eqb k (g q)) eqn:E.
  - apply pos_eqb_eq in E. apply Hfg in E. rewrite E.
    now rewrite pos_eqb_refl.
  - apply pos_eqb_neq in E.
    destruct (pos_eqb (f k) q) eqn:E'; [|exact IH].
    apply pos_eqb_eq, Hfg in E'. contradiction.
Qed.

Lemma get_shifted (b : Board) (shift : Z * Z) (q : Position) :
  NoDupKeys b ->
  get (shifted b shift) q = get b (fst q - fst shift, snd q - snd shift).
Proof.
  intros Hb. destruct (shifted_entries b shift Hb) as [-> _].
  unfold get.
  apply (map_get_mapped
           (fun p => (fst p + fst shift, snd p + snd shift))
           (fun q => (fst q - fst shift, snd q - snd shift))).
  intros [px py]; destruct q as [qx qy]; simpl. split.
  - intros E. inversion E. f_equal; lia.
  - intros E. inversion E. f_equal; lia.
Qed.

Lemma shifted_length (b : Board) (shift : Z * Z) :
  NoDupKeys b ->
  List.length (entries (shifted b shift)) = List.length (entries b).
Proof.
  intros Hb. destruct (shifted_entries b shift Hb) as [-> _].
  unfold entries. apply length_map.
Qed.

Lemma shifted_zero (b : Board) : NoDupKeys b -> shifted b (0, 0) = b.
Proof.
  intros Hb. destruct (shifted_entries b (0, 0) Hb) as [-> _].
  rewrite <- (map_id b) at 2. apply map_ext.
  intros [[x y] c]; simpl. now rewrite !Z.add_0_r.
Qed.

(** X7.  [shifted] translates every cell: the cell found at (x, y) is found
    at (x + dx, y + dy) afterwards, with its colour, and nothing else is
    occupied; the number of cells is kept; a shift by (0, 0) gives the board
    back, and two shifts in a row are the shift by the sum. *)
Theorem shifted_spec (b : Board) (Hb : NoDupKeys b) :
  (forall dx dy x y,
      get (shifted b (dx, dy)) (x + dx, y + dy) = get b (x, y))
  /\ (forall shift, List.length (entries (shifted b shift))
                     = List.length (entries b))
  /\ shifted b (0, 0) = b
  /\ (forall s1 s2,
        shifted (shifted b s1) s2
        = shifted b (fst s1 + fst s2, snd s1 + snd s2)).
Proof.
  split; [|split; [|split]].
  - intros dx dy x y. rewrite get_shifted by exact Hb. simpl.
    now rewrite !Z.add_simpl_r.
  - intros shift. now apply shifted_length.
  - now apply shifted_zero.
  - intros s1 s2.
    destruct (shifted_entries b s1 Hb) as [E1 H1].
    destruct (shifted_entries (shifted b s1) s2 H1) as [E2 _].
    destruct (shifted_entries b (fst s1 + fst s2, snd s1 + snd s2) Hb)
      as [E3 _].
    rewrite E2, E1, E3, map_map. apply map_ext.
    intros [[x y] c]; simpl. f_equal. f_equal; lia.
Qed.

Lemma shifted_spec_witness :
  NoDupKeys columnBoard /\ shifted columnBoard (0, 0) = columnBoard.
Proof.
  split; [apply noDupKeysb_sound; reflexivity|].
  apply (proj1 (proj2 (proj2 (shifted_spec columnBoard
                                (noDupKeysb_sound columnBoard eq_refl))))).
Defined.

Lemma adjusted_nonnegative (b : Board) :
  NoDupKeys b ->
  forall x y,
    occupied (shifted b (- fst (negativeShift b), - snd (negativeShift b)))
             (x, y) ->
    0 <= x /\ 0 <= y.
Proof.
  intros Hb x y [c Hc].
  destruct (negativeShift_bounds b) as [_ [Hlow _]].
  rewrite get_shifted in Hc by exact Hb. simpl in Hc.
  destruct (Hlow _ _ (ex_intro _ c Hc)). lia.
Qed.

(** X8.  The normalisation the game applies after a rotation, a shift by
    the negated [negativeShift], leaves no cell with a negative coordinate
    and keeps the number of cells; a board that has no negative coordinate
    is left as it is. *)
Theorem normalised_nonnegative (b : Board) (Hb : NoDupKeys b) :
  let adjusted :=
    shifted b (- fst (negativeShift b), - snd (negativeShift b)) in
  (forall x y, occupied adjusted (x, y) -> 0 <= x /\ 0 <= y)
  /\ List.length (entries adjusted) = List.length (entries b)
  /\ NoDupKeys adjusted
  /\ ((forall x y, occupied b (x, y) -> 0 <= x /\ 0 <= y) -> adjusted = b).
Proof.
  intros adjusted.
  destruct (negativeShift_bounds b) as [Hneg [Hlow [Hx Hy]]].
  split; [|split; [|split]].
  - now apply adjusted_nonnegative.
  - now apply shifted_length.
  - now apply shifted_NoDupKeys.
  - intros Hnn.
    assert (E1 : fst (negativeShift b) = 0).
    { destruct Hx as [E|[y Hocc]]; [exact E|]. apply Hnn in Hocc. lia. }
    assert (E2 : snd (negativeShift b) = 0).
    { destruct Hy as [E|[x Hocc]]; [exact E|]. apply Hnn in Hocc. lia. }
    unfold adjusted. rewrite E1, E2. simpl.
    now apply shifted_zero.
Qed.

Lemma normalised_nonnegative_witness :
  NoDupKeys (rotated (nth 1 POSSIBLE_PIECES []))
  /\ (forall x y,
        occupied
          (shifted (rotated (nth 1 POSSIBLE_PIECES []))
             (- fst (negativeShift (rotated (nth 1 POSSIBLE_PIECES []))),
              - snd (negativeShift (rotated (nth 1 POSSIBLE_PIECES [])))))
          (x, y) ->
        0 <= x /\ 0 <= y).
Proof.
  split; [apply noDupKeysb_sound; reflexivity|].
  apply (proj1 (normalised_nonnegative (rotated (nth 1 POSSIBLE_PIECES []))
                  (noDupKeysb_sound (rotated (nth 1 POSSIBLE_PIECES []))
                     eq_refl))).
Defined.

(** ** Reflections and quarter turns *)

(** X9.  [transposed] and [mirroredY] are involutions, and each moves the
    cells as its name says: the cell at (x, y) is found at (y, x) after
    [transposed] and at (x, -y) after [mirroredY], with its colour. *)
Theorem reflections_spec (b : Board) (Hb : NoDupKeys b) :
  transposed (transposed b) = b
  /\ mirroredY (mirroredY b) = b
  /\ (forall x y, get (transposed b) (y, x) = get b (x, y))
  /\ (forall x y, get (mirroredY b) (x, - y) = get b (x, y)).
Proof.
  destruct (transposed_entries b Hb) as [Et Ht].
  destruct (transposed_entries _ Ht) as [Ett _].
  destruct (mirroredY_entries b Hb) as [Em Hm].
  destruct (mirroredY_entries _ Hm) as [Emm _].
  split; [|split; [|split]].
  - rewrite Ett, Et, map_map. simpl.
    rewrite <- (map_id b) at 2. apply map_ext. now intros [[x y] c].
  - rewrite Emm, Em, map_map. simpl.
    rewrite <- (map_id b) at 2. apply map_ext.
    intros [[x y] c]; simpl. now rewrite Z.opp_involutive.
  - intros x y. rewrite Et. unfold get.
    apply (map_get_mapped (fun p => (snd p, fst p)) (fun q => (snd q, fst q))).
    intros [px py]; simpl. split; intros E; inversion E; reflexivity.
  - intros x y. rewrite Em. unfold get.
    rewrite (map_get_mapped (fun p => (fst p, - snd p))
               (fun q => (fst q, - snd q))).
    + simpl. now rewrite Z.opp_involutive.
    + intros [px py]; simpl. split; intros E; inversion E; subst; f_equal; lia.
Qed.

Lemma reflections_spec_witness :
  NoDupKeys gridBoard /\ transposed (transposed gridBoard) = gridBoard.
Proof.
  split; [apply noDupKeysb_sound; reflexivity|].
  apply (proj1 (reflections_spec gridBoard
                  (noDupKeysb_sound gridBoard eq_refl))).
Defined.

(** X10.  A quarter turn [rotated] sends the cell at (x, y) to (-y, x) and
    keeps the number of cells; [rotatedCounter] sends it to (y, -x) and
    undoes [rotated], in either order. *)
Theorem rotations_spec (b : Board) (Hb : NoDupKeys b) :
  (forall x y, get (rotated b) (- y, x) = get b (x, y))
  /\ (forall x y, get (rotatedCounter b) (y, - x) = get b (x, y))
  /\ rotatedCounter (rotated b) = b
  /\ rotated (rotatedCounter b) = b
  /\ List.length (entries (rotated b)) = List.length (entries b)
  /\ List.length (entries (rotatedCounter b)) = List.length (entries b).
Proof.
  destruct (rotated_entries b Hb) as [E1 H1].
  destruct (rotated_entries _ H1) as [E2 H2].
  destruct (rotated_entries _ H2) as [E3 H3].
  assert (Hrot : forall (c : Board) x y,
             NoDupKeys c -> get (rotated c) (- y, x) = get c (x, y)).
  { intros c x y Hc. destruct (rotated_entries c Hc) as [-> _]. unfold get.
    rewrite (map_get_mapped (fun p => (- snd p, fst p))
               (fun q => (snd q, - fst q))).
    - simpl. now rewrite Z.opp_involutive.
    - intros [px py]; simpl. split; intros E; inversion E; subst; f_equal; lia. }
  split; [intros x y; now apply Hrot|]. split; [|split; [|split; [|split]]].
  - intros x y. unfold rotatedCounter.
    rewrite <- (Hrot b x y Hb), <- (Hrot _ (- y) x H1), <- (Hrot _ (- x) (- y) H2).
    now rewrite !Z.opp_involutive.
  - apply (rotated_four_times b Hb).
  - apply (rotated_four_times b Hb).
  - rewrite E1. unfold entries. apply length_map.
  - unfold rotatedCounter, entries. rewrite E3, E2, E1.
    now rewrite !length_map.
Qed.

Lemma rotations_spec_witness :
  NoDupKeys gridBoard /\ rotatedCounter (rotated gridBoard) = gridBoard.
Proof.
  split; [apply noDupKeysb_sound; reflexivity|].
  apply (proj1 (proj2 (proj2 (rotations_spec gridBoard
                                (noDupKeysb_sound gridBoard eq_refl))))).
Defined.

(** ** [merged], continued *)

(** X11.  [merged this other] fails exactly when some position is occupied
    in both boards.  When it succeeds the result holds the cells of both:
    its entries are those of [this] followed by those of [other], a position
    has the colour it has in whichever board holds it, the number of cells
    is the sum, and the keys stay unique.  Merging with the empty board, on
    either side, gives the board back. *)
Theorem merged_spec_union (this other : Board) (Hother : NoDupKeys other) :
  (merged this other = None <->
   exists pos, occupied this pos /\ occupied other pos)
  /\ (forall r,
        merged this other = Some r ->
        entries r = entries this ++ entries other
        /\ (forall pos,
              get r pos = match get this pos with
                          | Some c => Some c
                          | None => get other pos
                          end)
        /\ List.length (entries r)
           = (List.length (entries this) + List.length (entries other))%nat
        /\ (NoDupKeys this -> NoDupKeys r))
  /\ merged this (newBoard []) = Some this
  /\ merged (newBoard []) other = Some other.
Proof.
  rewrite (merged_spec this other Hother).
  split; [|split; [|split]].
  - destruct (existsb (fun e => map_has this (fst e)) other) eqn:E.
    + split; [intros _ | reflexivity].
      apply overlap_iff in E. destruct E as [k [H1 H2]].
      exists k. split; now apply occupied_In.
    + split; [discriminate|].
      intros [k [H1 H2]].
      assert (Hov : existsb (fun e => map_has this (fst e)) other = true).
      { apply overlap_iff. exists k. split; now apply occupied_In. }
      congruence.
  - intros r Hr.
    destruct (existsb (fun e => map_has this (fst e)) other) eqn:E;
      [discriminate|].
    inversion Hr; subst. unfold entries, get.
    split; [reflexivity|]. split; [apply map_get_app|].
    split; [apply length_app|].
    intros Hthis. eapply merged_NoDupKeys; [exact Hthis | exact Hother|].
    rewrite (merged_spec this other Hother), E. reflexivity.
  - unfold merged. simpl. reflexivity.
  - rewrite (merged_spec (newBoard []) other Hother).
    assert (E : existsb (fun e => map_has (newBoard []) (fst e)) other = false).
    { apply not_true_is_false. intros H. apply overlap_iff in H.
      destruct H as [k [_ []]]. }
    now rewrite E.
Qed.

Lemma merged_spec_union_witness :
  NoDupKeys gridBoard /\ merged (newBoard []) gridBoard = Some gridBoard.
Proof.
  split; [apply noDupKeysb_sound; reflexivity|].
  apply (proj2 (proj2 (proj2 (merged_spec_union columnBoard gridBoard
                                (noDupKeysb_sound gridBoard eq_refl))))).
Defined.

(** ** [killLine] and the bounds *)

Lemma killLine_contained_aux (b : Board) (w h y : Z) :
  NoDupKeys b -> contained b w h = true -> y < h ->
  contained (killLine b y) w h = true.
Proof.
  intros Hb Hc Hy. rewrite contained_occupied in *.
  intros x oy [c Hget]. rewrite get_killLine in Hget by exact Hb.
  unfold killLineSource in Hget. simpl in Hget.
  destruct (Z.gtb_spec oy y) as [E|E].
  - apply (Hc x oy). now exists c.
  - destruct (Hc x (oy - 1)) as [Hx Hoy]; [now exists c|]. lia.
Qed.

(** X12.  [killLine] keeps a board within its bounds when the row index
    lies above the lower bound ([y < h]): the rows it moves down stop at row
    [y].  With a row index at or beyond the bound the bottom row of the
    board would be pushed out. *)
Theorem killLine_contained (b : Board) (w h y : Z)
    (Hb : NoDupKeys b) (Hc : contained b w h = true) (Hy : y < h) :
  contained (killLine b y) w h = true.
Proof.
  rewrite contained_occupied in *.
  intros x oy [c Hget]. rewrite get_killLine in Hget by exact Hb.
  destruct (killLineTarget_source y (x, oy)) as [Hne Htarget].
  destruct (killLineSource y (x, oy)) as [sx soy] eqn:E.
  destruct (Hc sx soy) as [Hx Hoy]; [now exists c|].
  unfold killLineTarget in Htarget. simpl in *.
  destruct (Z.ltb_spec soy y); inversion Htarget; subst; lia.
Qed.

Lemma killLine_contained_witness :
  (NoDupKeys gridBoard /\ contained gridBoard 4 3 = true /\ 1 < 3)
  /\ contained (killLine gridBoard 1) 4 3 = true.
Proof.
  split; [split; [apply noDupKeysb_sound; reflexivity | split; [reflexivity | lia]]|].
  apply (killLine_contained gridBoard 4 3 1
           (noDupKeysb_sound gridBoard eq_refl) eq_refl).
  lia.
Defined.

(** The precondition [y < h] is needed: on the one-column board of height
    3, [killLine] with the row index 3, which is not a row of the board,
    pushes the bottom cell out of the bounds. *)
Lemma killLine_outside_leaves_bounds :
  contained columnBoard 1 3 = true
  /\ contained (killLine columnBoard 3) 1 3 = false
  /\ get (killLine columnBoard 3) (0, 3) = Some Blue.
Proof. repeat split. Qed.

(** ** Clearing full lines *)

Lemma In_wholeLines (b : Board) (w h y : Z) :
  In y (wholeLines b w h) <->
  0 <= y < h /\ (forall x, 0 <= x < w -> occupied b (x, y)).
Proof.
  unfold wholeLines. now rewrite filter_In, In_range, row_full.
Qed.

Lemma rowCells_keys (b : Board) (y : Z) :
  List.map fst (rowCells b y)
  = filter (fun p : Position => snd p =? y) (List.map fst b).
Proof.
  unfold rowCells, entries.
  induction b as [|[k c] rest IH]; simpl; [reflexivity|].
  destruct (snd k =? y); simpl; now rewrite IH.
Qed.

Lemma range_NoDup (n : Z) : NoDup (range n).
Proof.
  unfold range. apply NoDup_map_injective; [|apply seq_NoDup].
  intros p q E. lia.
Qed.

Lemma full_row_length (b : Board) (w h y : Z) :
  NoDupKeys b -> contained b w h = true -> In y (wholeLines b w h) ->
  List.length (rowCells b y) = Z.to_nat w.
Proof.
  intros Hb Hc Hy. apply In_wholeLines in Hy. destruct Hy as [_ Hfull].
  rewrite contained_forall in Hc.
  rewrite <- (length_map fst (rowCells b y)), rowCells_keys.
  assert (Hlen : List.length (List.map (fun x : Z => (x, y)) (range w))
                 = Z.to_nat w).
  { unfold range. now rewrite !length_map, length_seq. }
  rewrite <- Hlen. apply Permutation_length. apply NoDup_Permutation.
  - apply NoDup_filter. exact Hb.
  - apply NoDup_map_injective; [|apply range_NoDup].
    intros p q E. now inversion E.
  - intros [px py]. rewrite filter_In, in_map_iff. simpl. split.
    + intros [Hin E]. apply Z.eqb_eq in E. subst.
      exists px. split; [reflexivity|]. apply In_range.
      now apply (Hc px y).
    + intros [x [E Hx]]. inversion E; subst. apply In_range in Hx.
      split; [|apply Z.eqb_refl].
      apply occupied_In. now apply Hfull.
Qed.

(** X13.  Clearing a full line of a board that lies within its bounds
    removes exactly [boardX] cells. *)
Theorem full_line_clear_count (b : Board) (w h y : Z)
    (Hb : NoDupKeys b) (Hc : contained b w h = true)
    (Hy : In y (wholeLines b w h)) :
  (List.length (entries (killLine b y)) + Z.to_nat w)%nat
  = List.length (entries b).
Proof.
  destruct (killLine_entries b y Hb) as [E _].
  unfold entries. rewrite E.
  rewrite <- (full_row_length b w h y Hb Hc Hy).
  apply survivors_killLine_length.
Qed.

Lemma full_line_clear_count_witness :
  (NoDupKeys gridBoard /\ contained gridBoard 4 3 = true
   /\ In 1 (wholeLines gridBoard 4 3))
  /\ (List.length (entries (killLine gridBoard 1)) + Z.to_nat 4)%nat
     = List.length (entries gridBoard).
Proof.
  split.
  - split; [apply noDupKeysb_sound; reflexivity|].
    split; [reflexivity | left; reflexivity].
  - apply (full_line_clear_count gridBoard 4 3 1
             (noDupKeysb_sound gridBoard eq_refl) eq_refl
             (or_introl eq_refl)).
Defined.

Lemma killLinesSource_row (lines : list Z) (x y : Z) :
  killLinesSource lines (x, y)
  = (x, snd (killLinesSource lines (0, y))).
Proof.
  induction lines as [|l ls IH]; simpl; [reflexivity|].
  rewrite IH. unfold killLineSource; simpl.
  destruct (snd (killLinesSource ls (0, y)) >? l); reflexivity.
Qed.

Lemma fold_killLine_contained (lines : list Z) (w h : Z) :
  forall b : Board,
    NoDupKeys b -> contained b w h = true ->
    Forall (fun y => y < h) lines ->
    contained (fold_left killLine lines b) w h = true.
Proof.
  induction lines as [|l ls IH]; intros b Hb Hc Hall; simpl; [exact Hc|].
  inversion Hall; subst.
  apply IH; [now apply killLine_NoDupKeys | | assumption].
  now apply killLine_contained_aux.
Qed.

Lemma wholeLines_below (b : Board) (w h : Z) :
  Forall (fun y => y < h) (wholeLines b w h).
Proof.
  apply Forall_forall. intros y Hy. apply In_wholeLines in Hy. lia.
Qed.

Lemma cleared_no_wholeLines (b : Board) (w h : Z) :
  NoDupKeys b -> contained b w h = true -> 0 < w ->
  wholeLines (fold_left killLine (wholeLines b w h) b) w h = [].
Proof.
  intros Hb Hc Hw.
  destruct (wholeLines (fold_left killLine (wholeLines b w h) b) w h)
    as [|y' rest] eqn:E; [reflexivity|].
  exfalso.
  assert (Hin : In y' (wholeLines (fold_left killLine (wholeLines b w h) b) w h))
    by (rewrite E; now left).
  apply In_wholeLines in Hin. destruct Hin as [_ Hfull].
  set (lines := wholeLines b w h) in *.
  set (oy := snd (killLinesSource lines (0, y'))).
  assert (Hsrc : forall x, 0 <= x < w -> occupied b (x, oy)).
  { intros x Hx. destruct (Hfull x Hx) as [c Hget].
    rewrite get_fold_killLine in Hget by exact Hb.
    rewrite killLinesSource_row in Hget. now exists c. }
  assert (Hnot : ~ In oy lines).
  { apply (killLinesSource_not_listed lines (0, y')).
    apply wholeLines_sorted. }
  apply Hnot. apply In_wholeLines. split; [|exact Hsrc].
  rewrite contained_occupied in Hc.
  apply (Hc 0 oy). apply Hsrc. lia.
Qed.

(** X14.  After the full lines of a board are cleared, in the order
    [wholeLines] lists them, no full line is left: on a board within its
    bounds that is at least one column wide, [wholeLines] of the result is
    empty, and the result still lies within the bounds. *)
Theorem clearing_leaves_no_full_line (b : Board) (w h : Z)
    (Hb : NoDupKeys b) (Hc : contained b w h = true) (Hw : 0 < w) :
  let cleared := fold_left killLine (wholeLines b w h) b in
  wholeLines cleared w h = []
  /\ contained cleared w h = true
  /\ NoDupKeys cleared.
Proof.
  intros cleared. split; [now apply cleared_no_wholeLines|]. split.
  - apply fold_killLine_contained; [exact Hb | exact Hc|].
    apply wholeLines_below.
  - now apply fold_killLine_NoDupKeys.
Qed.

Lemma clearing_leaves_no_full_line_witness :
  (NoDupKeys stackBoard /\ contained stackBoard 8 20 = true /\ 0 < 8)
  /\ wholeLines (fold_left killLine (wholeLines stackBoard 8 20) stackBoard)
       8 20 = [].
Proof.
  split.
  - split; [apply noDupKeysb_sound; reflexivity|].
    split; [reflexivity | lia].
  - apply (proj1 (clearing_leaves_no_full_line stackBoard 8 20
                    (noDupKeysb_sound stackBoard eq_refl) eq_refl
                    (eq_refl : (0 ?= 8) = Lt))).
Defined.

(** * Further properties of the state machine *)

(** ** The locked board stays within the bounds *)

Lemma contained_app (a b : Board) (w h : Z) :
  contained (a ++ b) w h = contained a w h && contained b w h.
Proof. unfold contained, entries. apply forallb_app. Qed.

Lemma merged_contained (this other r : Board) (w h : Z) :
  NoDupKeys other -> merged this other = Some r ->
  contained this w h = true -> contained other w h = true ->
  contained r w h = true.
Proof.
  intros Ho Hm Ht Hc. rewrite (merged_spec this other Ho) in Hm.
  destruct (existsb (fun e => map_has this (fst e)) other); [discriminate|].
  inversion Hm; subst. now rewrite contained_app, Ht, Hc.
Qed.

Lemma wholeLines_empty_board (w h : Z) :
  0 < w -> wholeLines (newBoard []) w h = [].
Proof.
  intros Hw. destruct (wholeLines (newBoard []) w h) as [|y rest] eqn:E;
    [reflexivity|].
  assert (Hin : In y (wholeLines (newBoard []) w h)) by (rewrite E; now left).
  apply In_wholeLines in Hin. destruct Hin as [_ Hfull].
  destruct (Hfull 0) as [c Hc]; [lia | discriminate Hc].
Qed.

Section BoardSound.

Variable metrics : Metrics.

Local Arguments tryKicks : simpl never.

Lemma createNewFalling_boardSound (board : Board) (env : Env) :
  contained board (boardX metrics) (boardY metrics) = true ->
  (0 < boardX metrics ->
   wholeLines board (boardX metrics) (boardY metrics) = []) ->
  boardSound metrics (createNewFalling metrics board env).
Proof.
  intros Hc Hl.
  destruct (createNewFalling_cases metrics board env)
    as [[_ [falling [shift [-> _]]]] | [_ ->]]; split; assumption.
Qed.

Lemma lock_boardSound (board falling : Board) (shift : Z * Z)
    (mergedBoard : Board) (env : Env) (stamp : Z) :
  NoDupKeys falling ->
  contained board (boardX metrics) (boardY metrics) = true ->
  placeable metrics board falling shift ->
  merged board (shifted falling shift) = Some mergedBoard ->
  boardSound metrics
    (if negb (Nat.eqb
                (List.length
                   (wholeLines mergedBoard (boardX metrics) (boardY metrics)))
                0)
     then Flashing mergedBoard 0 stamp
            (wholeLines mergedBoard (boardX metrics) (boardY metrics))
     else createNewFalling metrics mergedBoard env).
Proof.
  intros Hf Hc [_ Hp] Hm.
  assert (Hmc : contained mergedBoard (boardX metrics) (boardY metrics) = true).
  { eapply merged_contained; [| exact Hm | exact Hc | exact Hp].
    now apply shifted_NoDupKeys. }
  destruct (wholeLines mergedBoard (boardX metrics) (boardY metrics))
    as [|y rest] eqn:E; simpl.
  - apply createNewFalling_boardSound; [exact Hmc | intros _; exact E].
  - split; [exact Hmc | discriminate].
Qed.

Lemma attemptRotation_boardSound (st : GameState) (clockwise : bool) :
  boardSound metrics st ->
  boardSound metrics (attemptRotation metrics st clockwise).
Proof.
  destruct st as [board falling shift t| |]; simpl; auto.
  intros H.
  match goal with |- context [tryKicks ?m ?b ?a ?s ?d] =>
    destruct (tryKicks m b a s d) as [testShift|] end; exact H.
Qed.

Lemma handleKeyDown_boardSound (env : Env) (key : string) (prev : GameState) :
  wellFormed metrics prev -> falling_invariant metrics prev ->
  boardSound metrics prev ->
  boardSound metrics (handleKeyDown metrics env key prev).
Proof.
  intros Hwf Hinv H. destruct prev as [board falling shift t| |board];
  unfold handleKeyDown.
  - destruct (MOVE_DIRECTIONS key) as [move|].
    + match goal with |- context [if ?c then _ else _] => destruct c end;
        [exact H|].
      destruct (snd move =? 1); [|exact H].
      destruct (merged board (shifted falling shift)) as [mergedBoard|] eqn:Em;
        [|exact H].
      destruct Hwf as [_ Hf]. destruct H as [Hc _].
      exact (lock_boardSound board falling shift mergedBoard env
               (date_now env) Hf Hc Hinv Em).
    + destruct (key =? "ArrowUp")%string;
        [now apply attemptRotation_boardSound|].
      destruct (key =? " ")%string;
        [now apply attemptRotation_boardSound | exact H].
  - exact H.
  - destruct (key =? "Enter")%string; [|exact H].
    apply createNewFalling_boardSound; [reflexivity|].
    apply wholeLines_empty_board.
Qed.

Lemma gameLoop_boardSound (env : Env) (currentTime : Z) (s : LoopState) :
  wellFormed metrics (gameState s) ->
  falling_invariant metrics (gameState s) ->
  boardSound metrics (gameState s) ->
  boardSound metrics (gameState (gameLoop metrics env currentTime s)).
Proof.
  unfold gameLoop.
  destruct (lastTime s) as [last|]; [|auto].
  destruct (gameState s) as [board falling shift t|board stage lss lines|board];
    intros Hwf Hinv H.
  - destruct (currentTime - t >=? FALL_INTERVAL); [|exact H].
    match goal with |- context [if ?c then _ else _] => destruct c end;
      [exact H|].
    destruct Hwf as [_ Hf]. destruct H as [Hc Hl].
    destruct (merged board (shifted falling shift)) as [mergedBoard|] eqn:Em;
      [|split; assumption].
    pose proof (lock_boardSound board falling shift mergedBoard env
                  currentTime Hf Hc Hinv Em) as Hlock.
    match goal with |- context [if ?c then _ else _] => destruct c end;
      exact Hlock.
  - destruct Hwf as [Hb [Hlines _]]. destruct H as [Hc Hne].
    destruct (flashAccumulator s + (currentTime - last) >=? FLASH_DURATION);
      [|split; assumption].
    destruct (stage + 1 <? FLASH_STAGES); [split; assumption|].
    simpl. apply createNewFalling_boardSound.
    + apply fold_killLine_contained; [exact Hb | exact Hc|].
      rewrite Hlines. apply wholeLines_below.
    + intros Hw. rewrite Hlines. now apply cleared_no_wholeLines.
  - exact H.
Qed.

Lemma reachable_boardSound (s : LoopState) :
  reachable metrics s -> boardSound metrics (gameState s).
Proof.
  intros H. induction H as [env|env ev s Hs IH].
  - apply createNewFalling_boardSound; [reflexivity|].
    apply wholeLines_empty_board.
  - pose proof (reachable_wellFormed metrics s Hs) as Hwf.
    pose proof (reachable_invariant metrics s Hs) as Hinv.
    destruct ev as [key|currentTime]; simpl.
    + now apply handleKeyDown_boardSound.
    + now apply gameLoop_boardSound.
Qed.

End BoardSound.

(** X15.  In every state the hook can reach the locked board lies within
    the bounds and has unique keys.  A Flashing state carries exactly the
    full rows of its board, at least one, and a stage from 0 to 17; in a
    Falling or GameOver state, on a board at least one column wide, the
    locked board has no full row. *)
Theorem reachable_board_sound (metrics : Metrics) (s : LoopState)
    (Hs : reachable metrics s) :
  contained (stateBoard (gameState s)) (boardX metrics) (boardY metrics) = true
  /\ NoDupKeys (stateBoard (gameState s))
  /\ match gameState s with
     | Flashing board stage _ lines =>
         lines = wholeLines board (boardX metrics) (boardY metrics)
         /\ lines <> [] /\ 0 <= stage < FLASH_STAGES
     | st =>
         0 < boardX metrics ->
         wholeLines (stateBoard st) (boardX metrics) (boardY metrics) = []
     end.
Proof.
  pose proof (reachable_wellFormed metrics s Hs) as Hwf.
  pose proof (reachable_boardSound metrics s Hs) as [Hc Hl].
  split; [exact Hc|].
  destruct (gameState s) as [board falling shift t|board stage lss lines|board];
    simpl in *.
  - split; [apply Hwf | exact Hl].
  - destruct Hwf as [Hb [Hlines Hstage]]. auto.
  - split; [exact Hwf | exact Hl].
Qed.

Lemma reachable_board_sound_witness :
  reachable DEFAULT_METRICS flashStart
  /\ contained (stateBoard (gameState flashStart)) 8 20 = true.
Proof.
  split; [exact flashStart_reachable|].
  apply (proj1 (reachable_board_sound DEFAULT_METRICS flashStart
                  flashStart_reachable)).
Defined.

(** ** The falling piece *)

Lemma piece_contained (idx : nat) :
  contained (nth idx POSSIBLE_PIECES (newBoard [])) 4 2 = true.
Proof.
  do 7 (destruct idx as [|idx]; [reflexivity|]).
  destruct idx; reflexivity.
Qed.

Lemma piece_length (idx : nat) :
  (idx < List.length POSSIBLE_PIECES)%nat ->
  List.length (entries (nth idx POSSIBLE_PIECES (newBoard []))) = 4%nat.
Proof.
  intros H. do 7 (destruct idx as [|idx]; [reflexivity|]).
  simpl in H. lia.
Qed.

Lemma rotated_length (b : Board) :
  NoDupKeys b -> List.length (entries (rotated b)) = List.length (entries b).
Proof.
  intros Hb. destruct (rotated_entries b Hb) as [-> _].
  unfold entries. apply length_map.
Qed.

Lemma rotatedCounter_length (b : Board) :
  NoDupKeys b ->
  List.length (entries (rotatedCounter b)) = List.length (entries b).
Proof.
  intros Hb. unfold rotatedCounter.
  rewrite !rotated_length; auto using rotated_NoDupKeys.
Qed.

Lemma adjusted_length (b : Board) :
  NoDupKeys b ->
  List.length
    (entries (shifted b (- fst (negativeShift b), - snd (negativeShift b))))
  = List.length (entries b).
Proof. intros Hb. now apply shifted_length. Qed.

Section PieceSound.

Variable metrics : Metrics.

Local Arguments tryKicks : simpl never.

Lemma spawnRotations_pieceSound (board : Board) (rotations : nat) :
  forall (falling : Board) (shift : Z * Z),
    NoDupKeys falling ->
    (forall x y, occupied falling (x, y) -> 0 <= x /\ 0 <= y) ->
    List.length (entries falling) = 4%nat ->
    let fs := spawnRotations metrics board rotations falling shift in
    (forall x y, occupied (fst fs) (x, y) -> 0 <= x /\ 0 <= y)
    /\ List.length (entries (fst fs)) = 4%nat.
Proof.
  induction rotations as [|rest IH]; intros falling shift Hnd Hnn Hlen; simpl.
  - now split.
  - match goal with |- context [tryKicks ?m ?b ?a ?s ?d] =>
      destruct (tryKicks m b a s d) as [testShift|] end.
    + apply IH.
      * now apply shifted_NoDupKeys, rotatedCounter_NoDupKeys.
      * apply adjusted_nonnegative. now apply rotatedCounter_NoDupKeys.
      * rewrite adjusted_length by now apply rotatedCounter_NoDupKeys.
        now rewrite rotatedCounter_length.
    + now apply IH.
Qed.

Lemma createNewFalling_pieceSound (board : Board) (env : Env) :
  validEnv env -> pieceSound (createNewFalling metrics board env).
Proof.
  intros Hv. unfold createNewFalling.
  match goal with |- context [if ?c then _ else _] => destruct c end;
    [exact I|].
  simpl. apply spawnRotations_pieceSound.
  - apply piece_NoDupKeys.
  - intros x y Hocc.
    pose proof (piece_contained (rand_piece env)) as Hc.
    rewrite contained_occupied in Hc. destruct (Hc x y Hocc). lia.
  - now apply piece_length.
Qed.

Lemma attemptRotation_pieceSound (st : GameState) (clockwise : bool) :
  wellFormed metrics st -> pieceSound st ->
  pieceSound (attemptRotation metrics st clockwise).
Proof.
  destruct st as [board falling shift t| |]; simpl; auto.
  intros [_ Hf] [Hnn Hlen].
  assert (Hr : NoDupKeys (if clockwise then rotated falling
                          else rotatedCounter falling)).
  { destruct clockwise;
      [now apply rotated_NoDupKeys | now apply rotatedCounter_NoDupKeys]. }
  match goal with |- context [tryKicks ?m ?b ?a ?s ?d] =>
    destruct (tryKicks m b a s d) as [testShift|] end; simpl.
  - split; [now apply adjusted_nonnegative|].
    rewrite adjusted_length by exact Hr.
    destruct clockwise;
      [now rewrite rotated_length | now rewrite rotatedCounter_length].
  - now split.
Qed.

Lemma handleKeyDown_pieceSound (env : Env) (key : string) (prev : GameState) :
  validEnv env -> wellFormed metrics prev -> pieceSound prev ->
  pieceSound (handleKeyDown metrics env key prev).
Proof.
  intros Hv Hwf H. destruct prev as [board falling shift t| |board];
  unfold handleKeyDown.
  - destruct (MOVE_DIRECTIONS key) as [move|].
    + match goal with |- context [if ?c then _ else _] => destruct c end;
        [exact H|].
      destruct (snd move =? 1); [|exact H].
      destruct (merged board (shifted falling shift)) as [mergedBoard|];
        [|exact H].
      match goal with |- context [if ?c then _ else _] => destruct c end;
        [exact I | now apply createNewFalling_pieceSound].
    + destruct (key =? "ArrowUp")%string;
        [now apply attemptRotation_pieceSound|].
      destruct (key =? " ")%string;
        [now apply attemptRotation_pieceSound | exact H].
  - exact I.
  - destruct (key =? "Enter")%string;
      [now apply createNewFalling_pieceSound | exact I].
Qed.

Lemma gameLoop_pieceSound (env : Env) (currentTime : Z) (s : LoopState) :
  validEnv env -> pieceSound (gameState s) ->
  pieceSound (gameState (gameLoop metrics env currentTime s)).
Proof.
  intros Hv. unfold gameLoop.
  destruct (lastTime s) as [last|]; [|auto].
  destruct (gameState s) as [board falling shift t|board stage lss lines|board];
    intros H.
  - destruct (currentTime - t >=? FALL_INTERVAL); [|exact H].
    match goal with |- context [if ?c then _ else _] => destruct c end;
      [exact H|].
    destruct (merged board (shifted falling shift)) as [mergedBoard|];
      [|exact I].
    match goal with |- context [if ?c then _ else _] => destruct c end;
      [exact I | now apply createNewFalling_pieceSound].
  - destruct (flashAccumulator s + (currentTime - last) >=? FLASH_DURATION);
      [|exact I].
    destruct (stage + 1 <? FLASH_STAGES);
      [exact I | now apply createNewFalling_pieceSound].
  - exact I.
Qed.

Lemma runEvents_pieceSound (events : list (Env * Event)) :
  forall s : LoopState,
    Forall (fun e => validEnv (fst e)) events ->
    reachable metrics s -> pieceSound (gameState s) ->
    pieceSound (gameState (runEvents metrics events s)).
Proof.
  induction events as [|[env ev] rest IH]; intros s Hall Hs H; simpl;
    [exact H|].
  inversion Hall as [|? ? Hv Hrest]; subst. simpl in Hv.
  apply IH; [exact Hrest | now apply reach_step|].
  pose proof (reachable_wellFormed metrics s Hs) as Hwf.
  destruct ev as [key|currentTime]; simpl.
  - now apply handleKeyDown_pieceSound.
  - now apply gameLoop_pieceSound.
Qed.

End PieceSound.

(** X16.  As long as the piece index drawn is one of the catalogue, the
    falling piece of every Falling state of a game is a tetromino in
    normalised local coordinates: exactly four cells, at distinct positions,
    none with a negative coordinate, whatever rotations were made. *)
Theorem falling_piece_is_tetromino (metrics : Metrics) (env0 : Env)
    (events : list (Env * Event))
    (H0 : validEnv env0)
    (Hall : Forall (fun e => validEnv (fst e)) events) :
  forall board falling shift t,
    gameState (runEvents metrics events (initial metrics env0))
    = Falling board falling shift t ->
    List.length (entries falling) = 4%nat
    /\ NoDupKeys falling
    /\ (forall x y, occupied falling (x, y) -> 0 <= x /\ 0 <= y).
Proof.
  intros board falling shift t Hst.
  assert (Hreach : reachable metrics
                     (runEvents metrics events (initial metrics env0)))
    by apply reachable_runEvents, reach_initial.
  pose proof (reachable_wellFormed metrics _ Hreach) as Hwf.
  pose proof (runEvents_pieceSound metrics events (initial metrics env0) Hall
                (reach_initial metrics env0)
                (createNewFalling_pieceSound metrics (newBoard []) env0 H0))
    as Hps.
  rewrite Hst in Hwf, Hps. destruct Hwf as [_ Hf]. destruct Hps as [Hnn Hlen].
  auto.
Qed.

Lemma falling_piece_is_tetromino_witness :
  (validEnv exampleEnv
   /\ Forall (fun e => validEnv (fst e))
        [(exampleEnv, KeyDown " "); (exampleEnv, KeyDown "ArrowDown")])
  /\ List.length
       (entries
          (shifted (rotated (nth 2 POSSIBLE_PIECES []))
             (- fst (negativeShift (rotated (nth 2 POSSIBLE_PIECES []))),
              - snd (negativeShift (rotated (nth 2 POSSIBLE_PIECES []))))))
     = 4%nat.
Proof.
  assert (Hv : validEnv exampleEnv) by (unfold validEnv; simpl; lia).
  assert (Hall : Forall (fun e => validEnv (fst e))
                   [(exampleEnv, KeyDown " "); (exampleEnv, KeyDown "ArrowDown")])
    by (repeat constructor; exact Hv).
  split; [split; [exact Hv | exact Hall]|].
  apply (proj1 (falling_piece_is_tetromino DEFAULT_METRICS exampleEnv
                  [(exampleEnv, KeyDown " "); (exampleEnv, KeyDown "ArrowDown")]
                  Hv Hall [] _ (0, 1) 0 eq_refl)).
Defined.

(** ** Game over and restart *)

Lemma handleKeyDown_GameOver (metrics : Metrics) (env : Env) (key : string)
    (b : Board) :
  key <> "Enter"%string ->
  handleKeyDown metrics env key (GameOver b) = GameOver b.
Proof.
  intros Hne. simpl. destruct (String.eqb_spec key "Enter"); [contradiction|].
  reflexivity.
Qed.

(** X17.  GameOver is left by the Enter key only: through any run of frames
    and of other keys the state stays GameOver with the same board. *)
Theorem GameOver_persists (metrics : Metrics) (events : list (Env * Event))
    (s : LoopState) (b : Board)
    (Hst : gameState s = GameOver b)
    (Hkeys : forall env, ~ In (env, KeyDown "Enter") events) :
  gameState (runEvents metrics events s) = GameOver b.
Proof.
  revert s Hst. induction events as [|[env ev] rest IH]; intros s Hst; simpl;
    [exact Hst|].
  apply IH.
  - intros env' Hin. apply (Hkeys env'). now right.
  - destruct ev as [key|currentTime]; simpl.
    + rewrite Hst. apply handleKeyDown_GameOver.
      intros ->. apply (Hkeys env). now left.
    + unfold gameLoop. destruct (lastTime s); rewrite Hst; simpl;
        now rewrite ?Hst.
Qed.

Lemma GameOver_persists_witness :
  (gameState (mkLoop (GameOver stackBoard) (Some 0) 0) = GameOver stackBoard
   /\ forall env, ~ In (env, KeyDown "Enter") flashEvents)
  /\ gameState (runEvents DEFAULT_METRICS flashEvents
                  (mkLoop (GameOver stackBoard) (Some 0) 0))
     = GameOver stackBoard.
Proof.
  assert (Hkeys : forall env, ~ In (env, KeyDown "Enter") flashEvents).
  { intros env Hin. unfold flashEvents in Hin. simpl in Hin.
    repeat (destruct Hin as [Hin|Hin]; [discriminate Hin|]). exact Hin. }
  split; [split; [reflexivity | exact Hkeys]|].
  apply (GameOver_persists DEFAULT_METRICS flashEvents
           (mkLoop (GameOver stackBoard) (Some 0) 0) stackBoard eq_refl Hkeys).
Defined.

Lemma placeable_on_empty_board (metrics : Metrics) (idx : nat) :
  4 <= boardX metrics -> 2 <= boardY metrics ->
  placeable metrics (newBoard [])
    (nth idx POSSIBLE_PIECES (newBoard [])) (0, 0).
Proof.
  intros Hx Hy. unfold placeable.
  rewrite shifted_zero by apply piece_NoDupKeys. split.
  - rewrite (merged_spec _ _ (piece_NoDupKeys idx)).
    assert (E : existsb (fun e => map_has (newBoard []) (fst e))
                  (nth idx POSSIBLE_PIECES (newBoard [])) = false).
    { apply not_true_is_false. intros H. apply overlap_iff in H.
      destruct H as [k [_ []]]. }
    rewrite E. eauto.
  - eapply contained_mono; [apply piece_contained | exact Hx | exact Hy].
Qed.

(** X18.  On a board at least 4 columns wide and 2 rows high the spawn
    procedure never fails on the empty board: the game starts in a Falling
    state, and Enter in GameOver restarts it in a Falling state on the empty
    board, whatever piece and rotation are drawn. *)
Theorem start_is_falling (metrics : Metrics) (env : Env)
    (Hx : 4 <= boardX metrics) (Hy : 2 <= boardY metrics) :
  (exists falling shift,
      gameState (initial metrics env)
      = Falling (newBoard []) falling shift (performance_now env))
  /\ (forall b,
        exists falling shift,
          handleKeyDown metrics env "Enter" (GameOver b)
          = Falling (newBoard []) falling shift (performance_now env)).
Proof.
  assert (H : exists falling shift,
             createNewFalling metrics (newBoard []) env
             = Falling (newBoard []) falling shift (performance_now env)).
  { destruct (createNewFalling_cases metrics (newBoard []) env)
      as [[_ [falling [shift [E _]]]] | [Hnp _]].
    - now exists falling, shift.
    - exfalso. apply Hnp. now apply placeable_on_empty_board. }
  split; [exact H | intros b; exact H].
Qed.

Lemma start_is_falling_witness :
  (4 <= boardX DEFAULT_METRICS /\ 2 <= boardY DEFAULT_METRICS)
  /\ exists falling shift,
       gameState (initial DEFAULT_METRICS exampleEnv)
       = Falling (newBoard []) falling shift (performance_now exampleEnv).
Proof.
  assert (Hx : 4 <= boardX DEFAULT_METRICS) by (simpl; lia).
  assert (Hy : 2 <= boardY DEFAULT_METRICS) by (simpl; lia).
  split; [split; [exact Hx | exact Hy]|].
  apply (proj1 (start_is_falling DEFAULT_METRICS exampleEnv Hx Hy)).
Defined.

(** ** How a piece ends *)

Lemma createNewFalling_GameOver_board (metrics : Metrics) (board b' : Board)
    (env : Env) :
  createNewFalling metrics board env = GameOver b' -> b' = board.
Proof.
  intros H. pose proof (createNewFalling_board metrics board env) as Hb.
  rewrite H in Hb. exact Hb.
Qed.

Lemma attemptRotation_Falling (metrics : Metrics) (board falling : Board)
    (shift : Z * Z) (t : Z) (clockwise : bool) :
  exists falling' sx',
    attemptRotation metrics (Falling board falling shift t) clockwise
    = Falling board falling' (sx', snd shift) t.
Proof.
  destruct shift as [sx sy]. unfold attemptRotation.
  rewrite tryKicks_KICKS.
  repeat match goal with |- context [if ?c then _ else _] => destruct c end;
    eauto.
Qed.

(** X19.  A game that ends, ends with the last piece on the board: from a
    Falling state the hook can reach, a frame or a key press leads to
    GameOver only through the lock sequence, and the board of that GameOver
    state is the locked board merged with the piece at its shift.  The
    frame's fallback to GameOver on the board without the piece never runs. *)
Theorem game_over_keeps_last_piece (metrics : Metrics) (s : LoopState)
    (board falling : Board) (shift : Z * Z) (t : Z)
    (Hs : reachable metrics s)
    (Hst : gameState s = Falling board falling shift t) :
  (forall env currentTime b',
      gameState (gameLoop metrics env currentTime s) = GameOver b' ->
      merged board (shifted falling shift) = Some b')
  /\ (forall env key b',
        handleKeyDown metrics env key (gameState s) = GameOver b' ->
        merged board (shifted falling shift) = Some b').
Proof.
  pose proof (reachable_invariant metrics s Hs) as Hinv.
  rewrite Hst in Hinv. destruct Hinv as [[mb Hm] _].
  split.
  - intros env currentTime b'. unfold gameLoop.
    destruct (lastTime s) as [last|]; rewrite Hst; [|discriminate].
    destruct (currentTime - t >=? FALL_INTERVAL); [|simpl; discriminate].
    match goal with |- context [if ?c then _ else _] => destruct c end;
      [discriminate|].
    rewrite Hm.
    match goal with |- context [if ?c then _ else _] => destruct c end;
      [discriminate|].
    simpl. intros H. apply createNewFalling_GameOver_board in H. now subst.
  - intros env key b'. rewrite Hst. unfold handleKeyDown.
    destruct (MOVE_DIRECTIONS key) as [move|].
    + match goal with |- context [if ?c then _ else _] => destruct c end;
        [discriminate|].
      destruct (snd move =? 1); [|discriminate].
      rewrite Hm.
      match goal with |- context [if ?c then _ else _] => destruct c end;
        [discriminate|].
      intros H. apply createNewFalling_GameOver_board in H. now subst.
    + destruct (attemptRotation_Falling metrics board falling shift t false)
        as [f1 [s1 E1]].
      destruct (attemptRotation_Falling metrics board falling shift t true)
        as [f2 [s2 E2]].
      rewrite E1, E2.
      destruct (key =? "ArrowUp")%string; [discriminate|].
      destruct (key =? " ")%string; discriminate.
Qed.

Lemma towerState_reachable : reachable DEFAULT_METRICS towerState.
Proof. apply reachable_runEvents, reach_initial. Qed.

Lemma game_over_keeps_last_piece_witness :
  (reachable DEFAULT_METRICS towerState
   /\ gameState towerState
      = Falling towerBoard (nth 0 POSSIBLE_PIECES []) (0, 0) 0)
  /\ (gameState (gameLoop DEFAULT_METRICS envO 700 towerState)
      = GameOver (towerBoard ++ nth 0 POSSIBLE_PIECES [])
      /\ handleKeyDown DEFAULT_METRICS envO "ArrowDown" (gameState towerState)
         = GameOver (towerBoard ++ nth 0 POSSIBLE_PIECES []))
  /\ merged towerBoard (shifted (nth 0 POSSIBLE_PIECES []) (0, 0))
     = Some (towerBoard ++ nth 0 POSSIBLE_PIECES []).
Proof.
  assert (Hst : gameState towerState
                = Falling towerBoard (nth 0 POSSIBLE_PIECES []) (0, 0) 0)
    by (vm_compute; reflexivity).
  assert (Hframe : gameState (gameLoop DEFAULT_METRICS envO 700 towerState)
                   = GameOver (towerBoard ++ nth 0 POSSIBLE_PIECES []))
    by (vm_compute; reflexivity).
  assert (Hkey : handleKeyDown DEFAULT_METRICS envO "ArrowDown"
                   (gameState towerState)
                 = GameOver (towerBoard ++ nth 0 POSSIBLE_PIECES []))
    by (vm_compute; reflexivity).
  split; [split; [exact towerState_reachable | exact Hst]|].
  split; [split; [exact Hframe | exact Hkey]|].
  apply (proj1 (game_over_keeps_last_piece DEFAULT_METRICS towerState
                  towerBoard (nth 0 POSSIBLE_PIECES []) (0, 0) 0
                  towerState_reachable Hst) envO 700
               (towerBoard ++ nth 0 POSSIBLE_PIECES []) Hframe).
Defined.

Lemma MOVE_DIRECTIONS_sideways (key : string) (move : Z * Z) :
  key <> "ArrowDown"%string -> MOVE_DIRECTIONS key = Some move ->
  snd move = 0.
Proof.
  unfold MOVE_DIRECTIONS. intros Hne.
  destruct (key =? "ArrowRight")%string; [intros H; now inversion H|].
  destruct (key =? "ArrowLeft")%string; [intros H; now inversion H|].
  destruct (String.eqb_spec key "ArrowDown"); [contradiction | discriminate].
Qed.

(** X20.  Only the soft-drop key moves the piece down or locks it: any
    other key pressed in a Falling state gives a Falling state with the same
    locked board, the same gravity timestamp and the piece in the same row;
    a key that is neither a move nor a rotation changes nothing. *)
Theorem only_ArrowDown_locks (metrics : Metrics) (env : Env) (key : string)
    (board falling : Board) (shift : Z * Z) (t : Z)
    (Hkey : key <> "ArrowDown"%string) :
  (exists falling' sx',
      handleKeyDown metrics env key (Falling board falling shift t)
      = Falling board falling' (sx', snd shift) t)
  /\ (MOVE_DIRECTIONS key = None -> key <> "ArrowUp"%string ->
      key <> " "%string ->
      handleKeyDown metrics env key (Falling board falling shift t)
      = Falling board falling shift t).
Proof.
  unfold handleKeyDown. split.
  - destruct (MOVE_DIRECTIONS key) as [move|] eqn:Em.
    + pose proof (MOVE_DIRECTIONS_sideways key move Hkey Em) as E0.
      rewrite E0. rewrite Z.add_0_r. simpl (0 =? 1).
      match goal with |- context [if ?c then _ else _] => destruct c end.
      * eauto.
      * exists falling, (fst shift). now rewrite <- surjective_pairing.
    + destruct (key =? "ArrowUp")%string;
        [apply attemptRotation_Falling|].
      destruct (key =? " ")%string; [apply attemptRotation_Falling|].
      exists falling, (fst shift). now rewrite <- surjective_pairing.
  - intros -> Hup Hsp.
    destruct (String.eqb_spec key "ArrowUp"); [contradiction|].
    destruct (String.eqb_spec key " "); [contradiction | reflexivity].
Qed.

Lemma only_ArrowDown_locks_witness :
  "ArrowLeft"%string <> "ArrowDown"%string
  /\ exists falling' sx',
       handleKeyDown DEFAULT_METRICS exampleEnv "ArrowLeft"
         (Falling [] (nth 2 POSSIBLE_PIECES []) (0, 0) 0)
       = Falling [] falling' (sx', snd (0, 0)) 0.
Proof.
  assert (Hne : "ArrowLeft"%string <> "ArrowDown"%string) by discriminate.
  split; [exact Hne|].
  apply (proj1 (only_ArrowDown_locks DEFAULT_METRICS exampleEnv "ArrowLeft"
                  [] (nth 2 POSSIBLE_PIECES []) (0, 0) 0 Hne)).
Defined.

(** ** What the renderer is given *)

(** X21.  For every state the hook can reach, the board [getRenderProps]
    hands to the canvas lies within the bounds and has unique keys.  In a
    Falling state it is the locked board merged with the piece at its shift
    (the fallback to the bare board is never taken), so it shows every
    locked cell and every cell of the piece; the Flash effect is given only
    in a Flashing state at an odd stage, with the rows being cleared. *)
Theorem render_props_sound (metrics : Metrics) (s : LoopState)
    (Hs : reachable metrics s) :
  let shown := fst (getRenderProps (gameState s)) in
  contained shown (boardX metrics) (boardY metrics) = true
  /\ NoDupKeys shown
  /\ (forall board falling shift t,
        gameState s = Falling board falling shift t ->
        merged board (shifted falling shift) = Some shown
        /\ (forall pos,
              get shown pos
              = match get board pos with
                | Some c => Some c
                | None => get (shifted falling shift) pos
                end))
  /\ (forall lines,
        snd (getRenderProps (gameState s)) = Flash lines ->
        exists board stage lss,
          gameState s = Flashing board stage lss lines
          /\ Z.rem stage 2 = 1
          /\ lines = wholeLines board (boardX metrics) (boardY metrics)).
Proof.
  intros shown.
  pose proof (reachable_wellFormed metrics s Hs) as Hwf.
  pose proof (reachable_invariant metrics s Hs) as Hinv.
  pose proof (reachable_boardSound metrics s Hs) as [Hc _].
  unfold shown. clear shown.
  destruct (gameState s) as [board falling shift t|board stage lss lines|board];
    simpl in *.
  - destruct Hwf as [Hb Hf]. destruct Hinv as [[mb Hm] Hp].
    rewrite Hm.
    assert (Hsf : NoDupKeys (shifted falling shift))
      by now apply shifted_NoDupKeys.
    split; [exact (merged_contained board (shifted falling shift) mb
                     (boardX metrics) (boardY metrics) Hsf Hm Hc Hp)|].
    split; [exact (merged_NoDupKeys board (shifted falling shift) mb
                     Hb Hsf Hm)|].
    split; [|discriminate].
    intros board' falling' shift' t' E. inversion E; subst.
    split; [exact Hm|].
    rewrite (merged_spec _ _ Hsf) in Hm.
    destruct (existsb (fun e => map_has board' (fst e))
                (shifted falling' shift')); [discriminate|].
    inversion Hm; subst. intros pos. unfold get. apply map_get_app.
  - destruct Hwf as [Hb [Hlines Hstage]].
    split; [exact Hc|]. split; [exact Hb|]. split; [discriminate|].
    intros lines'.
    destruct (Z.eqb_spec (Z.rem stage 2) 0) as [E|E]; [discriminate|].
    intros H. inversion H; subst lines'.
    exists board, stage, lss. split; [reflexivity|]. split; [|exact Hlines].
    pose proof (Z.rem_bound_pos stage 2). lia.
  - split; [exact Hc|]. split; [exact Hwf|]. split; discriminate.
Qed.

Lemma render_props_sound_witness :
  reachable DEFAULT_METRICS flashStart
  /\ contained (fst (getRenderProps (gameState flashStart))) 8 20 = true.
Proof.
  split; [exact flashStart_reachable|].
  apply (proj1 (render_props_sound DEFAULT_METRICS flashStart
                  flashStart_reachable)).
Defined.

(** ** Soft drop *)

Lemma contained_shifted_cell (falling : Board) (sx sy x0 y0 w h : Z) :
  NoDupKeys falling -> occupied falling (x0, y0) ->
  contained (shifted falling (sx, sy)) w h = true ->
  0 <= x0 + sx < w /\ 0 <= y0 + sy < h.
Proof.
  intros Hf [c Hc] Hcont. rewrite contained_occupied in Hcont.
  apply Hcont. exists c. rewrite get_shifted by exact Hf. simpl.
  now rewrite !Z.add_simpl_r.
Qed.

Lemma handleKeyDown_ArrowDown (metrics : Metrics) (env : Env)
    (board falling : Board) (sx sy t : Z) :
  handleKeyDown metrics env "ArrowDown" (Falling board falling (sx, sy) t) =
  if truthy (merged board (shifted falling (sx, sy + 1)))
     && contained (shifted falling (sx, sy + 1))
          (boardX metrics) (boardY metrics)
  then Falling board falling (sx, sy + 1) t
  else
    match merged board (shifted falling (sx, sy)) with
    | Some mergedBoard =>
        if negb (Nat.eqb
                   (List.length
                      (wholeLines mergedBoard (boardX metrics) (boardY metrics)))
                   0)
        then Flashing mergedBoard 0 (date_now env)
               (wholeLines mergedBoard (boardX metrics) (boardY metrics))
        else createNewFalling metrics mergedBoard env
    | None => Falling board falling (sx, sy) t
    end.
Proof.
  unfold handleKeyDown.
  change (MOVE_DIRECTIONS "ArrowDown") with (Some (0, 1)).
  cbn [fst snd]. rewrite Z.add_0_r. reflexivity.
Qed.

Lemma soft_drop_aux (metrics : Metrics) (env : Env) (board falling : Board)
    (sx t x0 y0 : Z) :
  NoDupKeys falling -> occupied falling (x0, y0) ->
  forall (n : nat) (sy : Z),
    boardY metrics - 1 - sy - y0 <= Z.of_nat n ->
    placeable metrics board falling (sx, sy) ->
    exists (k : nat) (sy' : Z) (mergedBoard : Board),
      sy' = sy + Z.of_nat k
      /\ sy' + y0 <= boardY metrics - 1
      /\ pressDown metrics env k (Falling board falling (sx, sy) t)
         = Falling board falling (sx, sy') t
      /\ merged board (shifted falling (sx, sy')) = Some mergedBoard
      /\ ~ placeable metrics board falling (sx, sy' + 1)
      /\ stateBoard
           (pressDown metrics env (S k) (Falling board falling (sx, sy) t))
         = mergedBoard.
Proof.
  intros Hf Hcell. induction n as [|n IH]; intros sy Hn Hp.
  - destruct (truthy (merged board (shifted falling (sx, sy + 1)))
              && contained (shifted falling (sx, sy + 1))
                   (boardX metrics) (boardY metrics)) eqn:E.
    + apply placement_test in E. destruct E as [_ Hc].
      pose proof (contained_shifted_cell falling sx (sy + 1) x0 y0 _ _
                    Hf Hcell Hc). lia.
    + destruct Hp as [[mb Hm] Hc].
      pose proof (contained_shifted_cell falling sx sy x0 y0 _ _
                    Hf Hcell Hc) as Hb.
      exists O, sy, mb. split; [simpl; lia|]. split; [lia|].
      split; [reflexivity|]. split; [exact Hm|]. split.
      * rewrite <- placement_test. congruence.
      * cbn [pressDown]. rewrite handleKeyDown_ArrowDown, E, Hm.
        match goal with |- context [if ?c then _ else _] => destruct c end;
          [reflexivity | apply createNewFalling_board].
  - destruct (truthy (merged board (shifted falling (sx, sy + 1)))
              && contained (shifted falling (sx, sy + 1))
                   (boardX metrics) (boardY metrics)) eqn:E.
    + pose proof E as Hp'. apply placement_test in Hp'.
      destruct (IH (sy + 1)) as [k [sy' [mb [E1 [E2 [E3 [E4 [E5 E6]]]]]]]];
        [lia | exact Hp'|].
      exists (S k), sy', mb. split; [lia|]. split; [exact E2|].
      split; [|split; [exact E4|split; [exact E5|]]].
      * cbn [pressDown]. rewrite handleKeyDown_ArrowDown, E. exact E3.
      * change (pressDown metrics env (S (S k)) ?st)
          with (pressDown metrics env (S k)
                  (handleKeyDown metrics env "ArrowDown" st)).
        rewrite handleKeyDown_ArrowDown, E. exact E6.
    + destruct Hp as [[mb Hm] Hc].
      pose proof (contained_shifted_cell falling sx sy x0 y0 _ _
                    Hf Hcell Hc) as Hb.
      exists O, sy, mb. split; [simpl; lia|]. split; [lia|].
      split; [reflexivity|]. split; [exact Hm|]. split.
      * rewrite <- placement_test. congruence.
      * cbn [pressDown]. rewrite handleKeyDown_ArrowDown, E, Hm.
        match goal with |- context [if ?c then _ else _] => destruct c end;
          [reflexivity | apply createNewFalling_board].
Qed.

(** X22.  Soft drop always ends in a lock.  From a Falling state whose
    piece is placeable and has a cell in local row [y0], pressing ArrowDown
    moves the piece down one row at a time, with the board, the piece and
    the column unchanged, until it rests at a row where it is placeable and
    the row below is not; the next press locks it, and the locked board of
    the state that follows is the old board merged with the piece at its
    resting shift.  This takes at most boardY - 1 - sy - y0 presses before
    the locking one. *)
Theorem soft_drop_locks (metrics : Metrics) (env : Env)
    (board falling : Board) (sx sy t x0 y0 : Z)
    (Hf : NoDupKeys falling)
    (Hcell : occupied falling (x0, y0))
    (Hp : placeable metrics board falling (sx, sy)) :
  exists (k : nat) (sy' : Z) (mergedBoard : Board),
    sy' = sy + Z.of_nat k
    /\ Z.of_nat k <= boardY metrics - 1 - sy - y0
    /\ pressDown metrics env k (Falling board falling (sx, sy) t)
       = Falling board falling (sx, sy') t
    /\ merged board (shifted falling (sx, sy')) = Some mergedBoard
    /\ ~ placeable metrics board falling (sx, sy' + 1)
    /\ stateBoard
         (pressDown metrics env (S k) (Falling board falling (sx, sy) t))
       = mergedBoard.
Proof.
  destruct (soft_drop_aux metrics env board falling sx t x0 y0 Hf Hcell
              (Z.to_nat (boardY metrics - 1 - sy - y0)) sy)
    as [k [sy' [mb [E1 [E2 [E3 [E4 [E5 E6]]]]]]]]; [lia | exact Hp|].
  exists k, sy', mb. repeat split; auto. lia.
Qed.

Lemma soft_drop_locks_witness :
  (NoDupKeys (nth 0 POSSIBLE_PIECES [])
   /\ occupied (nth 0 POSSIBLE_PIECES []) (0, 1)
   /\ placeable DEFAULT_METRICS [] (nth 0 POSSIBLE_PIECES []) (0, 0))
  /\ exists (k : nat) (sy' : Z) (mergedBoard : Board),
       sy' = 0 + Z.of_nat k
       /\ Z.of_nat k <= boardY DEFAULT_METRICS - 1 - 0 - 1
       /\ pressDown DEFAULT_METRICS envO k
            (Falling [] (nth 0 POSSIBLE_PIECES []) (0, 0) 0)
          = Falling [] (nth 0 POSSIBLE_PIECES []) (0, sy') 0
       /\ merged [] (shifted (nth 0 POSSIBLE_PIECES []) (0, sy'))
          = Some mergedBoard
       /\ ~ placeable DEFAULT_METRICS [] (nth 0 POSSIBLE_PIECES [])
            (0, sy' + 1)
       /\ stateBoard
            (pressDown DEFAULT_METRICS envO (S k)
               (Falling [] (nth 0 POSSIBLE_PIECES []) (0, 0) 0))
          = mergedBoard.
Proof.
  assert (Hf : NoDupKeys (nth 0 POSSIBLE_PIECES []))
    by (apply noDupKeysb_sound; reflexivity).
  assert (Hcell : occupied (nth 0 POSSIBLE_PIECES []) (0, 1))
    by (exists Red; reflexivity).
  assert (Hp : placeable DEFAULT_METRICS [] (nth 0 POSSIBLE_PIECES []) (0, 0))
    by (split; [eexists; reflexivity | reflexivity]).
  split; [split; [exact Hf | split; [exact Hcell | exact Hp]]|].
  apply (soft_drop_locks DEFAULT_METRICS envO [] (nth 0 POSSIBLE_PIECES [])
           0 0 0 0 1 Hf Hcell Hp).
Defined.

(** ** [modified] and [modifiedFilter] in general *)

Lemma map_get_In (m : JsMap) (k : Position) (v : Color) :
  NoDupKeys m -> (map_get m k = Some v <-> In (k, v) m).
Proof.
  unfold NoDupKeys.
  induction m as [|[k' v'] rest IH]; simpl; intros H.
  - split; [discriminate | tauto].
  - inversion H as [|? ? Hnotin Hnd]; subst.
    destruct (pos_eqb k' k) eqn:E.
    + apply pos_eqb_eq in E. subst. split.
      * intros Hv. inversion Hv. now left.
      * intros [Hv|Hin]; [now inversion Hv|].
        exfalso. apply Hnotin. apply in_map_iff. now exists (k, v).
    + apply pos_eqb_neq in E. rewrite (IH Hnd). split; [auto|].
      intros [Hv|Hin]; [inversion Hv; congruence | exact Hin].
Qed.

Lemma occupied_newBoard (es : list (Position * Color)) (q : Position) :
  occupied (newBoard es) q <-> In q (List.map fst es).
Proof.
  unfold occupied. split.
  - intros [c Hc]. rewrite get_newBoard in Hc. unfold lastEntry in Hc.
    assert (Hin : In q (List.map fst (rev es))).
    { apply map_has_In. rewrite map_has_get, Hc. reflexivity. }
    rewrite map_rev in Hin. now apply in_rev.
  - intros Hin. rewrite in_rev, <- map_rev in Hin.
    apply map_has_In in Hin. rewrite map_has_get in Hin.
    setoid_rewrite get_newBoard. unfold lastEntry.
    destruct (map_get (rev es) q) as [c|]; [now exists c | discriminate].
Qed.

Lemma map_get_mapped_injective (b : JsMap) (f : Position -> Position)
    (p : Position) :
  (forall p q, f p = f q -> p = q) ->
  map_get (List.map (fun e => (f (fst e), snd e)) b) (f p) = map_get b p.
Proof.
  intros Hinj. induction b as [|[k v] rest IH]; simpl; [reflexivity|].
  destruct (pos_eqb k p) eqn:E.
  - apply pos_eqb_eq in E. subst. now rewrite pos_eqb_refl.
  - apply pos_eqb_neq in E.
    destruct (pos_eqb (f k) (f p)) eqn:E'; [|exact IH].
    apply pos_eqb_eq, Hinj in E'. contradiction.
Qed.

(** X23.  [modified] with any transform gives a board with unique keys
    whose occupied positions are exactly the images of the occupied
    positions, so it has at most as many cells; where two cells are sent to
    one position one of them is lost.  With an injective transform nothing
    is lost: the image of a position holds the colour the position held,
    and the number of cells is kept. *)
Theorem modified_spec (b : Board) (transform : Position -> Position) :
  NoDupKeys (modified b transform)
  /\ (forall q,
        occupied (modified b transform) q <->
        exists p, occupied b p /\ transform p = q)
  /\ (List.length (entries (modified b transform))
      <= List.length (entries b))%nat
  /\ ((forall p q, transform p = transform q -> p = q) ->
      NoDupKeys b ->
      (forall p, get (modified b transform) (transform p) = get b p)
      /\ List.length (entries (modified b transform))
         = List.length (entries b)).
Proof.
  unfold modified, entries.
  set (es := List.map (fun e => (transform (fst e), snd e)) b).
  assert (Hkeys : List.map fst es = List.map transform (List.map fst b)).
  { unfold es. rewrite !map_map. reflexivity. }
  assert (Hocc : forall q,
             occupied (newBoard es) q <->
             exists p, occupied b p /\ transform p = q).
  { intros q. rewrite occupied_newBoard, Hkeys, in_map_iff. split.
    - intros [p [E Hin]]. exists p. split; [now apply occupied_In | exact E].
    - intros [p [Hin E]]. exists p. split; [exact E | now apply occupied_In]. }
  split; [apply newBoard_unique_keys|]. split; [exact Hocc|]. split.
  - rewrite <- (length_map fst (newBoard es)).
    rewrite <- (length_map fst b), <- (length_map transform (List.map fst b)).
    apply NoDup_incl_length; [apply newBoard_unique_keys|].
    intros q Hq. rewrite <- Hkeys. apply occupied_newBoard.
    now apply occupied_In.
  - intros Hinj Hb.
    destruct (modified_injective b transform Hinj Hb) as [E _].
    unfold modified, entries in E. fold es in E. rewrite E. split.
    + intros p. unfold get, es. now apply map_get_mapped_injective.
    + unfold es. apply length_map.
Qed.

Lemma In_survivors (f : Position -> option Position)
    (b : list (Position * Color)) (q : Position) (c : Color) :
  In (q, c) (survivors f b) <-> exists p, In (p, c) b /\ f p = Some q.
Proof.
  unfold survivors. rewrite in_flat_map. split.
  - intros [[p c'] [Hin H]]. simpl in H.
    destruct (f p) as [np|] eqn:E; [|contradiction].
    destruct H as [H|[]]. inversion H; subst. now exists p.
  - intros [p [Hin E]]. exists (p, c). split; [exact Hin|].
    simpl. rewrite E. now left.
Qed.

(** X24.  [modifiedFilter] always gives a board with unique keys.  With a
    transform that sends no two positions to the same position, a cell is
    in the result exactly when it is the image of a cell of the board, with
    that cell's colour; the cells the transform answers [null] for are
    dropped, and they alone. *)
Theorem modifiedFilter_spec (b : Board)
    (transform : Position -> option Position) :
  NoDupKeys (modifiedFilter b transform)
  /\ ((forall p q r, transform p = Some r -> transform q = Some r -> p = q) ->
      NoDupKeys b ->
      (forall q c,
          get (modifiedFilter b transform) q = Some c <->
          exists p, transform p = Some q /\ get b p = Some c)
      /\ List.length (entries (modifiedFilter b transform))
         = List.length
             (filter (fun e => truthy (transform (fst e))) (entries b))).
Proof.
  split.
  - unfold modifiedFilter, entries. rewrite modifiedFilter_fold.
    apply (newBoard_unique_keys (survivors transform b)).
  - intros Hinj Hb.
    destruct (modifiedFilter_injective b transform Hinj Hb) as [E Hnd].
    rewrite E in *. split.
    + intros q c. unfold get. rewrite (map_get_In _ q c Hnd), In_survivors.
      split; intros [p [H1 H2]]; exists p.
      * split; [exact H2 | now apply map_get_In].
      * split; [now apply map_get_In | exact H1].
    + unfold entries, survivors. clear E Hnd Hb.
      induction b as [|[k v] rest IH]; simpl; [reflexivity|].
      destruct (transform k); simpl; now rewrite IH.
Qed.

(** ** Rotation input: what is rotated, normalised and tested *)

Lemma get_rotated (c : Board) (q : Position) :
  NoDupKeys c -> get (rotated c) q = get c (snd q, - fst q).
Proof.
  intros Hc. destruct (rotated_entries c Hc) as [-> _]. unfold get.
  apply (map_get_mapped (fun p => (- snd p, fst p))
           (fun q => (snd q, - fst q))).
  intros [px py]; destruct q as [qx qy]; simpl.
  split; intros E; inversion E; subst; f_equal; lia.
Qed.

Lemma get_rotatedCounter (c : Board) (q : Position) :
  NoDupKeys c -> get (rotatedCounter c) q = get c (- snd q, fst q).
Proof.
  intros Hc. unfold rotatedCounter.
  pose proof (rotated_NoDupKeys c Hc) as H1.
  pose proof (rotated_NoDupKeys _ H1) as H2.
  rewrite (get_rotated _ q H2), (get_rotated _ _ H1), (get_rotated _ _ Hc).
  simpl. now rewrite Z.opp_involutive.
Qed.

Lemma occupied_shifted (b : Board) (shift : Z * Z) (q : Position) :
  NoDupKeys b ->
  (occupied (shifted b shift) q <->
   occupied b (fst q - fst shift, snd q - snd shift)).
Proof.
  intros Hb. unfold occupied. now setoid_rewrite (get_shifted b shift q Hb).
Qed.

Lemma merged_Some_iff (this other : Board) :
  NoDupKeys other ->
  ((exists r, merged this other = Some r) <->
   forall pos, occupied other pos -> ~ occupied this pos).
Proof.
  intros Ho. rewrite (merged_spec this other Ho).
  destruct (existsb (fun e => map_has this (fst e)) other) eqn:E.
  - split; [intros [r Hr]; discriminate|].
    intros H. exfalso. apply overlap_iff in E. destruct E as [k [H1 H2]].
    apply (H k); now apply occupied_In.
  - split; [|eauto]. intros _ pos H1 H2.
    assert (Hov : existsb (fun e => map_has this (fst e)) other = true).
    { apply overlap_iff. exists pos. split; now apply occupied_In. }
    congruence.
Qed.

(** The placement test [merged && contained], cell by cell. *)
Lemma fits_cells (metrics : Metrics) (board piece : Board) (shift : Z * Z) :
  NoDupKeys piece ->
  (truthy (merged board (shifted piece shift))
   && contained (shifted piece shift) (boardX metrics) (boardY metrics) = true
   <->
   forall x y,
     occupied piece (x, y) ->
     ~ occupied board (x + fst shift, y + snd shift)
     /\ 0 <= x + fst shift < boardX metrics
     /\ 0 <= y + snd shift < boardY metrics).
Proof.
  intros Hp.
  pose proof (shifted_NoDupKeys piece shift Hp) as Hs.
  rewrite andb_true_iff, truthy_true, (merged_Some_iff _ _ Hs),
    contained_occupied.
  assert (Hcell : forall x y,
             occupied piece (x, y) ->
             occupied (shifted piece shift) (x + fst shift, y + snd shift)).
  { intros x y H. apply (occupied_shifted piece shift _ Hp). simpl.
    now rewrite !Z.add_simpl_r. }
  split.
  - intros [Hm Hc] x y H. split; [apply Hm | apply Hc]; now apply Hcell.
  - intros H. split.
    + intros [x y] Hocc. apply (occupied_shifted piece shift _ Hp) in Hocc.
      simpl in Hocc. destruct (H _ _ Hocc) as [Hn _].
      now rewrite !Z.sub_add in Hn.
    + intros x y Hocc. apply (occupied_shifted piece shift _ Hp) in Hocc.
      simpl in Hocc. destruct (H _ _ Hocc) as [_ Hb].
      now rewrite !Z.sub_add in Hb.
Qed.

(** A piece turned by [turn], as [rotated_] holds it, and then normalised. *)
Lemma turned_and_normalised (falling rotated_ : Board)
    (turn unturn : Position -> Position) :
  NoDupKeys rotated_ ->
  (forall p, unturn (turn p) = p) ->
  (forall q, turn (unturn q) = q) ->
  (forall q, get rotated_ q = get falling (unturn q)) ->
  let mx := fst (negativeShift rotated_) in
  let my := snd (negativeShift rotated_) in
  let adjusted := shifted rotated_ (- mx, - my) in
  (forall p, get rotated_ (turn p) = get falling p)
  /\ (forall q, occupied rotated_ q ->
               exists p, q = turn p /\ occupied falling p)
  /\ (mx <= 0 /\ my <= 0)
  /\ (forall p, occupied falling p ->
               mx <= fst (turn p) /\ my <= snd (turn p))
  /\ (mx = 0 \/ exists p, occupied falling p /\ fst (turn p) = mx)
  /\ (my = 0 \/ exists p, occupied falling p /\ snd (turn p) = my)
  /\ (forall p,
        get adjusted (fst (turn p) - mx, snd (turn p) - my) = get falling p)
  /\ (forall q, occupied adjusted q ->
               0 <= fst q /\ 0 <= snd q
               /\ exists p,
                    q = (fst (turn p) - mx, snd (turn p) - my)
                    /\ occupied falling p).
Proof.
  intros Hr Hut Htu Hget mx my adjusted.
  destruct (negativeShift_bounds rotated_) as [Hneg [Hlow [Hx Hy]]].
  fold mx in Hneg, Hlow, Hx. fold my in Hneg, Hlow, Hy.
  assert (H1 : forall p, get rotated_ (turn p) = get falling p)
    by (intros p; now rewrite Hget, Hut).
  assert (Hocc : forall q, occupied rotated_ q -> occupied falling (unturn q)).
  { intros q [c Hc]. exists c. now rewrite <- Hget. }
  split; [exact H1|]. split.
  { intros q Hq. exists (unturn q). split; [now rewrite Htu | now apply Hocc]. }
  split; [exact Hneg|]. split.
  { intros p [c Hc]. apply Hlow. rewrite <- surjective_pairing.
    exists c. now rewrite H1. }
  split.
  { destruct Hx as [E|[y Hq]]; [now left|]. right.
    exists (unturn (mx, y)). split; [now apply Hocc | now rewrite Htu]. }
  split.
  { destruct Hy as [E|[x Hq]]; [now left|]. right.
    exists (unturn (x, my)). split; [now apply Hocc | now rewrite Htu]. }
  split.
  { intros p. unfold adjusted. rewrite get_shifted by exact Hr. simpl.
    replace (fst (turn p) - mx - - mx) with (fst (turn p)) by lia.
    replace (snd (turn p) - my - - my) with (snd (turn p)) by lia.
    rewrite <- surjective_pairing. apply H1. }
  intros [qx qy] Hq.
  destruct (adjusted_nonnegative rotated_ Hr qx qy Hq) as [H0x H0y].
  split; [exact H0x|]. split; [exact H0y|].
  apply (occupied_shifted rotated_ _ _ Hr) in Hq. simpl in Hq.
  exists (unturn (qx - - mx, qy - - my)). split; [|now apply Hocc].
  rewrite Htu. simpl. f_equal; lia.
Qed.

(** C6.  A rotation key in a Falling state rotates the local piece,
    normalises it, and tries the current shift first and the shift one
    column to the left second; the first of the two that merges with the
    locked board and is contained is accepted, replacing the piece and the
    shift only; if neither is, the state returned is the previous state,
    unchanged.  Both copies of the key handler and [attemptRotation] agree.
    Cell by cell, for a piece with unique keys: the rotated piece holds the
    cell (x, y) at (-y, x) for the clockwise key and at (y, -x) for the
    counter-clockwise key, and nothing else; the offset taken off is the
    least column and the least row of the turned cells, each capped at 0; the
    piece tried has every turned cell moved by that offset, nothing else, and
    no negative coordinate; and a shift passes the test exactly when no cell
    of the piece tried, moved by the shift, meets an occupied cell of the
    locked board or leaves the bounds. *)
Theorem rotation_tries_shift_then_left (metrics : Metrics) (env : Env)
    (board falling : Board) (sx sy timeSinceFall : Z) (clockwise : bool) :
  let key := if clockwise then " "%string else "ArrowUp"%string in
  let rotated_ :=
    if clockwise then rotated falling else rotatedCounter falling in
  let adjusted :=
    shifted rotated_
      (- fst (negativeShift rotated_), - snd (negativeShift rotated_)) in
  let fits shift :=
    truthy (merged board (shifted adjusted shift))
    && contained (shifted adjusted shift) (boardX metrics) (boardY metrics) in
  let prev := Falling board falling (sx, sy) timeSinceFall in
  let next :=
    if fits (sx, sy) then Falling board adjusted (sx, sy) timeSinceFall
    else if fits (sx - 1, sy) then
      Falling board adjusted (sx - 1, sy) timeSinceFall
    else prev in
  (handleKeyDown metrics env key prev = next
   /\ attemptRotation metrics prev clockwise = next
   /\ legacyRotationBranch metrics key prev = next)
  /\ (NoDupKeys falling ->
      let turn := fun p : Position =>
        if clockwise then (- snd p, fst p) else (snd p, - fst p) in
      let mx := fst (negativeShift rotated_) in
      let my := snd (negativeShift rotated_) in
      ((forall p, get rotated_ (turn p) = get falling p)
       /\ (forall q, occupied rotated_ q ->
                    exists p, q = turn p /\ occupied falling p)
       /\ (mx <= 0 /\ my <= 0)
       /\ (forall p, occupied falling p ->
                    mx <= fst (turn p) /\ my <= snd (turn p))
       /\ (mx = 0 \/ exists p, occupied falling p /\ fst (turn p) = mx)
       /\ (my = 0 \/ exists p, occupied falling p /\ snd (turn p) = my)
       /\ (forall p,
             get adjusted (fst (turn p) - mx, snd (turn p) - my)
             = get falling p)
       /\ (forall q, occupied adjusted q ->
                    0 <= fst q /\ 0 <= snd q
                    /\ exists p,
                         q = (fst (turn p) - mx, snd (turn p) - my)
                         /\ occupied falling p))
      /\ List.length (entries adjusted) = List.length (entries falling)
      /\ (forall shift,
            fits shift = true <->
            forall x y,
              occupied adjusted (x, y) ->
              ~ occupied board (x + fst shift, y + snd shift)
              /\ 0 <= x + fst shift < boardX metrics
              /\ 0 <= y + snd shift < boardY metrics)).
Proof.
  intros key rotated_ adjusted fits prev next. split.
  - assert (E : attemptRotation metrics prev clockwise = next).
    { unfold attemptRotation, prev, next, fits. fold rotated_. fold adjusted.
      rewrite tryKicks_KICKS.
      destruct (truthy (merged board (shifted adjusted (sx, sy)))
                && contained (shifted adjusted (sx, sy))
                     (boardX metrics) (boardY metrics)); [reflexivity|].
      destruct (truthy (merged board (shifted adjusted (sx - 1, sy)))
                && contained (shifted adjusted (sx - 1, sy))
                     (boardX metrics) (boardY metrics)); reflexivity. }
    destruct (handleKeyDown_rotation_keys metrics env board falling (sx, sy)
                timeSinceFall) as [Hup Hsp].
    destruct (legacyRotationBranch_rotation_keys metrics board falling (sx, sy)
                timeSinceFall) as [Lup Lsp].
    rewrite <- E. unfold key, prev.
    destruct clockwise; auto.
  - intros Hf turn mx my.
    assert (Hr : NoDupKeys rotated_).
    { unfold rotated_. destruct clockwise;
        [now apply rotated_NoDupKeys | now apply rotatedCounter_NoDupKeys]. }
    split; [|split].
    + unfold turn, mx, my, adjusted, rotated_ in *. destruct clockwise.
      * apply (turned_and_normalised falling (rotated falling)
                 (fun p => (- snd p, fst p)) (fun q => (snd q, - fst q)) Hr).
        -- intros [x y]; simpl. f_equal; lia.
        -- intros [x y]; simpl. f_equal; lia.
        -- intros q. now apply get_rotated.
      * apply (turned_and_normalised falling (rotatedCounter falling)
                 (fun p => (snd p, - fst p)) (fun q => (- snd q, fst q)) Hr).
        -- intros [x y]; simpl. f_equal; lia.
        -- intros [x y]; simpl. f_equal; lia.
        -- intros q. now apply get_rotatedCounter.
    + unfold adjusted. rewrite shifted_length by exact Hr.
      unfold rotated_. destruct clockwise;
        [now apply rotated_length | now apply rotatedCounter_length].
    + intros shift. unfold fits. apply fits_cells.
      now apply shifted_NoDupKeys.
Qed.

Lemma rotation_tries_shift_then_left_witness :
  NoDupKeys (nth 1 POSSIBLE_PIECES [])
  /\ handleKeyDown DEFAULT_METRICS exampleEnv " "
       (Falling [] (nth 1 POSSIBLE_PIECES []) (0, 0) 0)
     = Falling []
         [((1, 0), Green); ((1, 1), Green); ((1, 2), Green); ((0, 1), Green)]
         (0, 0) 0
  /\ (forall p,
        get (rotated (nth 1 POSSIBLE_PIECES [])) (- snd p, fst p)
        = get (nth 1 POSSIBLE_PIECES []) p).
Proof.
  assert (Hf : NoDupKeys (nth 1 POSSIBLE_PIECES []))
    by (apply noDupKeysb_sound; reflexivity).
  split; [exact Hf|]. split.
  - exact (proj1 (proj1 (rotation_tries_shift_then_left DEFAULT_METRICS
                           exampleEnv [] (nth 1 POSSIBLE_PIECES []) 0 0 0
                           true))).
  - exact (proj1 (proj1 (proj2 (rotation_tries_shift_then_left DEFAULT_METRICS
                                  exampleEnv [] (nth 1 POSSIBLE_PIECES [])
                                  0 0 0 true) Hf))).
Defined.
